(** * RestartCleaner: retention of the N most recent restart directories

    A shallow embedding of [restart_cleaner_standalone.cpp] and
    [main_standalone.cpp].  Strings are [string], C++ [int] values are [Z]
    (with the conversions that can wrap written out), exceptions are an
    outcome type, and the filesystem together with the two output streams is
    an explicit world threaded through a small state-and-exception monad. *)

From Stdlib Require Import ZArith Lia Ascii String List Sorting.Sorted Permutation.
From Stdlib Require DecimalString.
From stdpp Require Import base tactics option list sorting gmap strings.

Local Open Scope string_scope.
Local Open Scope Z_scope.

(** ** Exceptions *)

(** The exception classes the program throws or catches.  All of them derive
    from [std::exception]; [what] is the text [e.what()] returns. *)
Inductive exn : Type :=
| invalid_argument (msg : string)
| out_of_range (msg : string)
| runtime_error (msg : string)
| filesystem_error (msg : string).

Definition what (e : exn) : string :=
  match e with
  | invalid_argument m | out_of_range m | runtime_error m | filesystem_error m => m
  end.

Inductive outcome (A : Type) : Type :=
| Ok (a : A)
| Throw (e : exn).
Arguments Ok {A} a.
Arguments Throw {A} e.

(** ** Machine integers *)

Definition INT_MIN : Z := -2147483648.
Definition INT_MAX : Z := 2147483647.

(** Conversion of an integer value to [int] (two's complement, modulo 2^32). *)
Definition to_int (x : Z) : Z := (x + 2147483648) `mod` 4294967296 - 2147483648.

(** Conversion of an integer value to [size_t] (modulo 2^64). *)
Definition to_size_t (x : Z) : Z := x `mod` 18446744073709551616.

(** ** Characters and [std::stoi] *)

Definition char_code (c : ascii) : Z := Z.of_nat (nat_of_ascii c).

(** [std::isdigit] in the "C" locale. *)
Definition isdigit (c : ascii) : bool :=
  (48 <=? char_code c) && (char_code c <=? 57).

(** [std::isspace] in the "C" locale: space, and \t \n \v \f \r. *)
Definition isspace (c : ascii) : bool :=
  (char_code c =? 32) || ((9 <=? char_code c) && (char_code c <=? 13)).

Fixpoint skip_space (s : string) : string :=
  match s with
  | String c s' => if isspace c then skip_space s' else s
  | EmptyString => s
  end.

(** The longest run of decimal digits at the front of [s], accumulated in
    base 10 on top of [acc]. *)
Fixpoint read_digits (acc : Z) (s : string) : Z :=
  match s with
  | String c s' =>
      if isdigit c then read_digits (10 * acc + (char_code c - 48)) s' else acc
  | EmptyString => acc
  end.

(** [std::stoi(str)] with the default base 10 and no position argument:
    leading white space is skipped, one sign is accepted, the digits that
    follow are converted and whatever comes after them is ignored.  No digit
    at all throws [std::invalid_argument], a value that does not fit an [int]
    throws [std::out_of_range]. *)
Definition stoi (str : string) : outcome Z :=
  let s1 := skip_space str in
  let '(neg, s2) :=
    match s1 with
    | String c r =>
        if Ascii.eqb c "-" then (true, r)
        else if Ascii.eqb c "+" then (false, r)
        else (false, s1)
    | EmptyString => (false, s1)
    end in
  match s2 with
  | String c _ =>
      if isdigit c then
        let v := read_digits 0 s2 in
        let v := if neg then - v else v in
        if (INT_MIN <=? v) && (v <=? INT_MAX) then Ok v
        else Throw (out_of_range "stoi")
      else Throw (invalid_argument "stoi")
  | EmptyString => Throw (invalid_argument "stoi")
  end.

(** [s.substr(pos, n)] and [s.substr(pos)] for [pos <= s.length()], the only
    way the program calls them. *)
Definition substr (pos n : nat) (s : string) : string := substring pos n s.
Definition substr_from (pos : nat) (s : string) : string :=
  substring pos (String.length s - pos) s.

(** ** RestartCleaner::parseIterationNum *)

(** The function with the numeric conversion of its last step as a
    parameter, so that the [catch (...)] around it can be stated for any
    behaviour of the conversion. *)
Definition parseIterationNum_with (conv : string → outcome Z) (dirname : string) : Z :=
  if negb (String.length dirname =? 14)%nat
     || negb (String.eqb (substr 0 8 dirname) "restore.")
  then -1
  else
    let number_part := substr_from 8 dirname in
    if negb (String.length number_part =? 6)%nat then -1
    else if negb (forallb isdigit (list_ascii_of_string number_part)) then -1
    else match conv number_part with
         | Ok n => n
         | Throw _ => -1
         end.

Definition parseIterationNum (dirname : string) : Z :=
  parseIterationNum_with stoi dirname.

(** ** The naming convention, as the specification words it *)

Definition digit_char (v : Z) : ascii := ascii_of_nat (48 + Z.to_nat v).

Definition restart_name (d : list Z) : string :=
  "restore." ++ string_of_list_ascii (digit_char <$> d).

(** "restore." followed by exactly six decimal digits and nothing else. *)
Definition valid_restart_name (s : string) : Prop :=
  ∃ d : list Z, length d = 6%nat ∧ Forall (λ v, 0 ≤ v ≤ 9) d ∧ s = restart_name d.

(** Plain base-10 value of a digit sequence, leading zeros included. *)
Definition decimal (d : list Z) : Z := foldl (λ acc v, 10 * acc + v) 0 d.

(** ** Text written to the output streams *)

Inductive stream : Type := Stdout | Stderr.

(** One entry per [<< ... << std::endl] statement, in the order written. *)
Definition output : Type := list (stream * string).

(** [operator<<] for [int] and [size_t]: decimal, with a minus sign. *)
Definition show_int (n : Z) : string :=
  DecimalString.NilZero.string_of_int (Z.to_int n).

Definition dquote : ascii := ascii_of_nat 34.
Definition backslash : ascii := ascii_of_nat 92.

(** [operator<<] for [fs::path] writes the path with [std::quoted]: between
    double quotes, with every double quote and backslash escaped. *)
Fixpoint escape (s : string) : string :=
  match s with
  | EmptyString => EmptyString
  | String c r =>
      if Ascii.eqb c dquote || Ascii.eqb c backslash
      then String backslash (String c (escape r))
      else String c (escape r)
  end.

Definition quoted (s : string) : string :=
  String dquote (escape s ++ String dquote EmptyString).

(** ** Paths and the filesystem *)

(** The paths the program handles are all of the form [restart_dir / name]
    for a child [name] of the scanned directory. *)
Record path : Type := { parent : string; filename : string }.

Definition ends_with_slash (s : string) : bool :=
  match String.length s with
  | O => false
  | S n => match String.get n s with
           | Some c => Ascii.eqb c "/"
           | None => false
           end
  end.

(** [p.string()] for [p = fs::path(parent) / filename]. *)
Definition path_string (p : path) : string :=
  if String.eqb (parent p) EmptyString then filename p
  else if ends_with_slash (parent p) then parent p ++ filename p
  else parent p ++ "/" ++ filename p.

(** A child of a directory whose scan succeeds: its name, what
    [is_directory()] answered for it (for a symbolic link, the answer for what
    it points to), and what [fs::remove_all] does on it: [None] when the
    whole tree can be removed, [Some cause] when the removal fails with that
    error.  A child is a thing of its own: the model has no link from one
    child to another, so that removing a child changes the answer of
    [is_directory()] for no other child, and it holds no path below a
    child. *)
Record dirent : Type := {
  d_name : string;
  d_is_directory : bool;
  d_remove_error : option string
}.

(** Where the reading of a path fails: at its status, so that already
    [fs::exists] throws (no search permission on a parent, a loop of links, a
    name too long); at the opening of [fs::directory_iterator] (no read
    permission, not a directory); or at an entry, when the iterator is
    advanced or [is_directory()] is asked of an entry whose status cannot be
    read (a link that loops). *)
Inductive stage : Type := AtStatus | AtOpen | AtEntry.

(** A failure is the stage it occurs at and the error text the library
    reports; it is used as that text. *)
Record failure : Type := { f_stage : stage; f_cause :> string }.

(** What the filesystem has at a path.  [Listable children]: the whole scan
    of the path succeeds, that is, [fs::exists] holds, the iterator opens and
    runs to its end, and [is_directory()] answers for every child; the
    children are given in iteration order.  [Unlistable cause]: there is
    something at the path and a scan of it fails with [cause], at one of the
    three stages.  What a scan had read before it failed is dropped with the
    exception, so that no children are kept for such a path. *)
Inductive node : Type :=
| Listable (children : list dirent)
| Unlistable (cause : failure).

(** The filesystem maps the paths at which there is something to what is
    there. *)
Record world : Type := {
  w_fs : gmap string node;
  w_out : output
}.

(** ** The monad of the program: state and exceptions *)

Definition M (A : Type) : Type := world → outcome A * world.

Definition ret {A} (a : A) : M A := λ w, (Ok a, w).
Definition throw {A} (e : exn) : M A := λ w, (Throw e, w).
Definition bind {A B} (m : M A) (k : A → M B) : M B :=
  λ w, match m w with
       | (Ok a, w') => k a w'
       | (Throw e, w') => (Throw e, w')
       end.

Notation "'let*' x := m 'in' k" := (bind m (λ x, k))
  (at level 10, x name, m at level 100, k at level 200).
Notation "m ;;; k" := (bind m (λ _, k))
  (at level 100, k at level 200, right associativity).

(** [try { body } catch (const std::exception& e) { handler }]; every
    exception of the program derives from [std::exception], so this is also
    [catch (...)]. *)
Definition try_catch {A} (body : M A) (handler : exn → M A) : M A :=
  λ w, match body w with
       | (Ok a, w') => (Ok a, w')
       | (Throw e, w') => handler e w'
       end.

Definition print (s : stream) (text : string) : M unit :=
  λ w, (Ok tt, {| w_fs := w_fs w; w_out := (w_out w ++ [(s, text)])%list |}).

Definition cout : string → M unit := print Stdout.
Definition cerr : string → M unit := print Stderr.

(** [fs::exists(p)]: throws where the status of [p] cannot be read. *)
Definition fs_exists (p : string) : M bool :=
  λ w, match w_fs w !! p with
       | Some (Unlistable {| f_stage := AtStatus; f_cause := cause |}) =>
           (Throw (filesystem_error cause), w)
       | Some _ => (Ok true, w)
       | None => (Ok false, w)
       end.

(** The reads of the scan: opening [fs::directory_iterator(p)], running it
    to the end and asking [is_directory()] of every entry.  They give the
    children where all of them succeed and throw where one of them fails. *)
Definition directory_iterator (p : string) : M (list dirent) :=
  λ w, match w_fs w !! p with
       | Some (Listable children) => (Ok children, w)
       | Some (Unlistable cause) => (Throw (filesystem_error cause), w)
       | None => (Throw (filesystem_error "No such file or directory"), w)
       end.

(** [fs::remove_all(p)] for a child [p] of a scanned directory: removes the
    tree at [p] from its parent directory, throws where the tree cannot be
    removed, and does nothing (returning 0) where there is nothing at [p].
    The tree below the child is not part of the model. *)
Definition remove_all (p : path) : M unit :=
  λ w, match w_fs w !! parent p with
       | Some (Listable children) =>
           match find (λ e, String.eqb (d_name e) (filename p)) children with
           | Some e =>
               match d_remove_error e with
               | Some cause => (Throw (filesystem_error cause), w)
               | None =>
                   (Ok tt,
                    {| w_fs := <[parent p :=
                                   Listable (List.filter
                                     (λ e, negb (String.eqb (d_name e) (filename p)))
                                     children)]> (w_fs w);
                       w_out := w_out w |})
               end
           | None => (Ok tt, w)
           end
       | Some (Unlistable cause) => (Throw (filesystem_error cause), w)
       | None => (Ok tt, w)
       end.

(** ** [std::sort] *)

(** [operator<] of [fs::path] for two children paths: the parent parts are
    compared first, then the file names, character by character. *)
Definition path_compare (p q : path) : comparison :=
  match String.compare (parent p) (parent q) with
  | Eq => String.compare (filename p) (filename q)
  | c => c
  end.

(** [operator<] of [std::pair<int, fs::path>]: lexicographic. *)
Definition pair_lt (a b : Z * path) : bool :=
  (a.1 <? b.1) ||
  ((a.1 =? b.1) && match path_compare a.2 b.2 with Lt => true | _ => false end).

(** The order [std::sort] establishes: no element is less than one before it. *)
Definition pair_le (a b : Z * path) : Prop := pair_lt b a = false.

#[global] Instance pair_le_dec : RelDecision pair_le :=
  λ a b, decide (pair_lt b a = false).

(** [std::sort] leaves a permutation of its input ordered by [operator<];
    for the total orders used here that result does not depend on the
    algorithm, and a merge sort computes it. *)
Definition sort_pairs (v : list (Z * path)) : list (Z * path) := merge_sort pair_le v.
Definition sort_ints (v : list Z) : list Z := merge_sort Z.le v.

(** ** class RestartCleaner *)

Inductive CleanupStrategy : Type := KEEP_RECENT_N.

(** The four data members, all [const]. *)
Record RestartCleaner : Type := {
  d_restart_base_path : string;
  d_strategy : CleanupStrategy;
  d_keep_restart_count : Z;
  d_dry_run : bool
}.

Definition parseStrategy (strategy_str : string) : M CleanupStrategy :=
  if String.eqb strategy_str "KEEP_RECENT_N" then ret KEEP_RECENT_N
  else throw (invalid_argument ("RestartCleaner: Unknown strategy: " ++ strategy_str)).

(** The constructor: the member initialisers run first ([parseStrategy] among
    them), then the body. *)
Definition RestartCleaner_new (restart_base_path : string) (keep_restart_count : Z)
    (strategy : string) (dry_run : bool) : M RestartCleaner :=
  let* strat := parseStrategy strategy in
  if keep_restart_count <=? 0 then
    throw (invalid_argument "RestartCleaner: keep_restart_count must be positive")
  else
    let* found := fs_exists restart_base_path in
    if negb found then
      throw (invalid_argument
               ("RestartCleaner: restart_base_path does not exist: " ++ restart_base_path))
    else
      ret {| d_restart_base_path := restart_base_path;
             d_strategy := strat;
             d_keep_restart_count := keep_restart_count;
             d_dry_run := dry_run |}.

(** The loop of [getAllRestartDirs] over the entries of a directory whose
    reads all succeed; a scan in which [is_directory()] throws is a scan of
    an [Unlistable] path, failing at an entry. *)
Fixpoint collect_restart_dirs (restart_dir : string) (entries : list dirent) : list path :=
  match entries with
  | [] => []
  | entry :: rest =>
      if d_is_directory entry then
        let dirname := d_name entry in
        if 0 <=? parseIterationNum dirname
        then {| parent := restart_dir; filename := dirname |}
               :: collect_restart_dirs restart_dir rest
        else collect_restart_dirs restart_dir rest
      else collect_restart_dirs restart_dir rest
  end.

Definition getAllRestartDirs (restart_dir : string) : M (list path) :=
  try_catch
    (let* found := fs_exists restart_dir in
     if found then
       let* entries := directory_iterator restart_dir in
       ret (collect_restart_dirs restart_dir entries)
     else ret [])
    (λ e, throw (runtime_error ("RestartCleaner: Error scanning directory: " ++ what e))).

(** The loop of [getAvailableIterations] over the directories found. *)
Fixpoint collect_iterations (all_dirs : list path) : list Z :=
  match all_dirs with
  | [] => []
  | dir :: rest =>
      let iter := parseIterationNum (filename dir) in
      if 0 <=? iter then iter :: collect_iterations rest
      else collect_iterations rest
  end.

Definition getAvailableIterations (this : RestartCleaner) : M (list Z) :=
  try_catch
    (let* all_dirs := getAllRestartDirs (d_restart_base_path this) in
     ret (sort_ints (collect_iterations all_dirs)))
    (λ e, cerr ("RestartCleaner: Error scanning directories: " ++ what e) ;;;
          ret []).

(** The first loop of [keepRecentN]: pairs of iteration number and path. *)
Fixpoint collect_dirs_with_iter (all_dirs : list path) : list (Z * path) :=
  match all_dirs with
  | [] => []
  | dir :: rest =>
      let iter := parseIterationNum (filename dir) in
      if 0 <=? iter then (iter, dir) :: collect_dirs_with_iter rest
      else collect_dirs_with_iter rest
  end.

(** One round of the deletion loop, for [dirs_with_iter[i].second]. *)
Definition delete_one (dry_run : bool) (dir_path : path) : M unit :=
  if dry_run then
    cout ("  DRY RUN: Would delete " ++ quoted (path_string dir_path))
  else
    try_catch
      (remove_all dir_path ;;;
       cout ("  Deleted " ++ quoted (path_string dir_path)))
      (λ e, cerr ("  Error deleting " ++ quoted (path_string dir_path)
                    ++ ": " ++ what e)).

(** [for (int i = 0; i < num_to_delete; ++i)], started at index [i] with
    [n] rounds to go; the vector is not read past its end. *)
Fixpoint delete_loop (dry_run : bool) (dirs_with_iter : list (Z * path))
    (i n : nat) : M unit :=
  match n with
  | O => ret tt
  | S n' =>
      match dirs_with_iter !! i with
      | Some d => delete_one dry_run d.2 ;;; delete_loop dry_run dirs_with_iter (S i) n'
      | None => ret tt
      end
  end.

Definition keepRecentN (this : RestartCleaner) : M unit :=
  let* all_dirs := getAllRestartDirs (d_restart_base_path this) in
  match all_dirs with
  | [] => cout "No restart directories found"
  | _ :: _ =>
      cout ("Found " ++ show_int (Z.of_nat (length all_dirs)) ++ " restart directories") ;;;
      let dirs_with_iter := sort_pairs (collect_dirs_with_iter all_dirs) in
      let size := Z.of_nat (length dirs_with_iter) in
      if to_int size <=? d_keep_restart_count this then
        cout ("No cleanup needed, keeping all " ++ show_int size ++ " directories")
      else
        let num_to_delete := to_int (to_size_t (size - to_size_t (d_keep_restart_count this))) in
        cout ("Deleting " ++ show_int num_to_delete ++ " old restart directories (keeping "
                ++ show_int (d_keep_restart_count this) ++ " most recent)") ;;;
        delete_loop (d_dry_run this) dirs_with_iter 0 (Z.to_nat num_to_delete)
  end.

Definition executeStrategy (this : RestartCleaner) : M unit := keepRecentN this.

Definition cleanup (this : RestartCleaner) : M unit :=
  cout ("RestartCleaner: Starting cleanup of " ++ d_restart_base_path this) ;;;
  cout ("Keeping " ++ show_int (d_keep_restart_count this)
          ++ " most recent restart directories") ;;;
  executeStrategy this.

(** ** The command-line program *)

Definition show_usage (program_name : string) : M unit :=
  cout "IBAMR Restart Cleanup Tool" ;;;
  cout ("Usage: " ++ program_name ++ " --recent N <restart_dir> [--dry-run]") ;;;
  cout EmptyString ;;;
  cout "Options:" ;;;
  cout "  --recent N     Keep the N most recent restore directories" ;;;
  cout EmptyString ;;;
  cout "Flags:" ;;;
  cout "  --dry-run      Preview mode - show what would be deleted without actual deletion" ;;;
  cout EmptyString ;;;
  cout "Examples:" ;;;
  cout ("  " ++ program_name ++ " --recent 5 ./restart_IB2d") ;;;
  cout ("  " ++ program_name ++ " --recent 3 ./restart_IB2d --dry-run").

(** [argv[i]] as a [std::string]. *)
Definition arg (argv : list string) (i : nat) : string := default EmptyString (argv !! i).

Definition newline : string := String (ascii_of_nat 10) EmptyString.

(** The line [main] ends with on success. *)
Definition final_line (remaining : list Z) : stream * string :=
  (Stdout, newline ++ "Final result: " ++ show_int (Z.of_nat (length remaining))
             ++ " directories remaining.").

(** The body of the last [try] block of [main]: the work on the core. *)
Definition cleaner_session (restart_dir : string) (keep_count : Z) (dry_run : bool) : M Z :=
  let* cleaner := RestartCleaner_new restart_dir keep_count "KEEP_RECENT_N" dry_run in
  cleanup cleaner ;;;
  let* remaining := getAvailableIterations cleaner in
  cout (newline ++ "Final result: " ++ show_int (Z.of_nat (length remaining))
          ++ " directories remaining.") ;;;
  ret 0.

(** The last [try] block with its [catch (const std::exception& e)]. *)
Definition run_cleaner (restart_dir : string) (keep_count : Z) (dry_run : bool) : M Z :=
  try_catch
    (cleaner_session restart_dir keep_count dry_run)
    (λ e, cerr ("Error: " ++ what e) ;;; ret 1).

(** [main] from the parsing of [argv[2]] on, once [dry_run] is settled. *)
Definition main_parse_and_run (argv : list string) (dry_run : bool) : M Z :=
  let restart_dir := arg argv 3 in
  match stoi (arg argv 2) with
  | Throw (invalid_argument _) =>
      cerr ("Error: '" ++ arg argv 2 ++ "' is not a valid number.") ;;; ret 1
  | Throw (out_of_range _) =>
      cerr ("Error: Number '" ++ arg argv 2 ++ "' is out of range.") ;;; ret 1
  | Throw e => throw e
  | Ok keep_count =>
      if keep_count <=? 0 then
        cerr ("Error: Keep count must be positive, got " ++ show_int keep_count) ;;;
        ret 1
      else run_cleaner restart_dir keep_count dry_run
  end.

(** [main], with [argc] the length of [argv]; the result is the exit code. *)
Definition main (argv : list string) : M Z :=
  let argc := Z.of_nat (length argv) in
  if (argc <? 4) || (argc >? 5) then
    show_usage (arg argv 0) ;;; ret 1
  else
    let option := arg argv 1 in
    if negb (String.eqb option "--recent") then
      cerr "Error: Currently only --recent option is supported." ;;;
      show_usage (arg argv 0) ;;; ret 1
    else if argc =? 5 then
      if String.eqb (arg argv 4) "--dry-run" then main_parse_and_run argv true
      else
        cerr ("Error: Unknown flag '" ++ arg argv 4 ++ "'.") ;;;
        show_usage (arg argv 0) ;;; ret 1
    else main_parse_and_run argv false.

(** ** Notions of the specification *)

(** The text of a number: an optional sign and then decimal digits only, at
    least one. *)
Definition numeric_text (s : string) : Prop :=
  ∃ body : string,
    (s = body ∨ s = String "-" body ∨ s = String "+" body) ∧
    body ≠ EmptyString ∧
    forallb isdigit (list_ascii_of_string body) = true.

(** The valid restart directories among the children of a directory. *)
Definition valid_entry (e : dirent) : bool :=
  d_is_directory e && (0 <=? parseIterationNum (d_name e)).

Definition entry_iteration (e : dirent) : Z := parseIterationNum (d_name e).

(** The children of the directory at [base], as far as the scan sees them:
    none where the path does not exist. *)
Definition children_at (fs : gmap string node) (base : string) : list dirent :=
  match fs !! base with
  | Some (Listable children) => children
  | _ => []
  end.

(** The path and the sort key the cleanup builds for a child of [base]. *)
Definition entry_path (base : string) (e : dirent) : path :=
  {| parent := base; filename := d_name e |}.

Definition entry_pair (base : string) (e : dirent) : Z * path :=
  (entry_iteration e, entry_path base e).

#[global] Instance dirent_eq_dec : EqDecision dirent := ltac:(solve_decision).

(** The line the deletion loop writes for an entry it processes. *)
Definition report_line (dry_run : bool) (base : string) (e : dirent) : stream * string :=
  if dry_run then
    (Stdout, "  DRY RUN: Would delete " ++ quoted (path_string (entry_path base e)))
  else
    match d_remove_error e with
    | None => (Stdout, "  Deleted " ++ quoted (path_string (entry_path base e)))
    | Some cause =>
        (Stderr, "  Error deleting " ++ quoted (path_string (entry_path base e))
                   ++ ": " ++ cause)
    end.

(** Whether a child is still there after the entries of [del] were
    processed: everything is in a dry run, and otherwise what was not
    selected or could not be removed. *)
Definition survives (dry_run : bool) (del : list dirent) (e : dirent) : bool :=
  dry_run || negb (bool_decide (e ∈ del)) || bool_decide (is_Some (d_remove_error e)).

(** The deletion loop run over a list of pairs from its first to its last. *)
Fixpoint delete_list (dry_run : bool) (dirs : list (Z * path)) : M unit :=
  match dirs with
  | [] => ret tt
  | d :: rest => delete_one dry_run d.2 ;;; delete_list dry_run rest
  end.

(** Appending lines to the output of a world. *)
Definition with_output (w : world) (lines : output) : world :=
  {| w_fs := w_fs w; w_out := (w_out w ++ lines)%list |}.

(** The two lines [cleanup] starts with. *)
Definition cleanup_header (this : RestartCleaner) : output :=
  [(Stdout, "RestartCleaner: Starting cleanup of " ++ d_restart_base_path this);
   (Stdout, "Keeping " ++ show_int (d_keep_restart_count this)
              ++ " most recent restart directories")].

(** The lines [keepRecentN] writes before the deletion loop. *)
Definition line_none : stream * string := (Stdout, "No restart directories found").
Definition line_found (n : Z) : stream * string :=
  (Stdout, "Found " ++ show_int n ++ " restart directories").
Definition line_no_cleanup (n : Z) : stream * string :=
  (Stdout, "No cleanup needed, keeping all " ++ show_int n ++ " directories").
Definition line_deleting (n keep : Z) : stream * string :=
  (Stdout, "Deleting " ++ show_int n ++ " old restart directories (keeping "
             ++ show_int keep ++ " most recent)").

(** ** The directory tree of the test suite *)

Definition test_dir (name : string) : dirent :=
  {| d_name := name; d_is_directory := true; d_remove_error := None |}.

(** The nine valid and seven invalid directories [TestEnvironment] creates. *)
Definition test_children : list dirent :=
  test_dir <$>
    ["restore.000100"; "restore.000200"; "restore.000300";
     "restore.001000"; "restore.002500"; "restore.003000";
     "restore.999999"; "restore.000001"; "restore.005000";
     "restore.12345"; "restore.1234567"; "restore.abc123";
     "restore_invalid"; "other_directory"; "restore."; "restore.000100_backup"].

Definition test_path : string := "test_restart_cleanup/restart_IB2d".

Definition test_world : world :=
  {| w_fs := {[ test_path := Listable test_children ]}; w_out := [] |}.

(** The same tree with one old directory that cannot be removed and a plain
    file with a valid name. *)
Definition locked_children : list dirent :=
  [ test_dir "restore.000300";
    {| d_name := "restore.000100"; d_is_directory := true;
       d_remove_error := Some "Permission denied" |};
    test_dir "restore.000200";
    {| d_name := "restore.000050"; d_is_directory := false; d_remove_error := None |};
    test_dir "restore.000400" ].

Definition locked_world : world :=
  {| w_fs := {[ test_path := Listable locked_children ]}; w_out := [] |}.

(** A world in which the base path exists and cannot be listed, and one in
    which it is gone. *)
Definition unreadable_world : world :=
  {| w_fs := {[ test_path := Unlistable {| f_stage := AtOpen;
                                            f_cause := "Permission denied" |} ]};
     w_out := [] |}.

(** A world in which the status of the base path cannot be read, and one in
    which the base directory opens and holds a link that loops. *)
Definition unreachable_world : world :=
  {| w_fs := {[ test_path := Unlistable {| f_stage := AtStatus;
                                            f_cause := "Permission denied" |} ]};
     w_out := [] |}.

Definition looping_world : world :=
  {| w_fs := {[ test_path := Unlistable {| f_stage := AtEntry;
                  f_cause := "Too many levels of symbolic links" |} ]};
     w_out := [] |}.

Definition empty_world : world := {| w_fs := ∅; w_out := [] |}.

Definition test_cleaner (keep : Z) (dry_run : bool) : RestartCleaner :=
  {| d_restart_base_path := test_path; d_strategy := KEEP_RECENT_N;
     d_keep_restart_count := keep; d_dry_run := dry_run |}.

(** The base path gives no listing: it is gone, or it cannot be opened. *)
Definition unreadable (fs : gmap string node) (base : string) : Prop :=
  ∀ children, fs !! base ≠ Some (Listable children).

(** The diagnostic [getAvailableIterations] writes for a scan error. *)
Definition line_scan_error (cause : string) : stream * string :=
  (Stderr, "RestartCleaner: Error scanning directories: "
             ++ "RestartCleaner: Error scanning directory: " ++ cause).

(** What [main] rejects before it reaches the core: a wrong number of
    arguments, an option other than [--recent], a fifth argument other than
    [--dry-run], a keep count [std::stoi] throws on, or one that is not
    positive. *)
Definition usage_error (argv : list string) : Prop :=
  let argc := Z.of_nat (length argv) in
  argc < 4 ∨ argc > 5 ∨
  arg argv 1 ≠ "--recent" ∨
  (argc = 5 ∧ arg argv 4 ≠ "--dry-run") ∨
  (∃ e, stoi (arg argv 2) = Throw e) ∨
  (∃ n, stoi (arg argv 2) = Ok n ∧ n ≤ 0).

(** The line [main] writes for an exception of the core. *)
Definition error_line (e : exn) : stream * string := (Stderr, "Error: " ++ what e).

(** ** Notions for the statements on whole runs *)

(** The lines [keepRecentN] writes between the header and the deletion loop,
    for [n] valid entries. *)
Definition summary_lines (n keep : Z) : output :=
  if n =? 0 then [line_none]
  else if n <=? keep then [line_found n; line_no_cleanup n]
  else [line_found n; line_deleting (n - keep) keep].

(** How many of the entries have an iteration number above that of [e]. *)
Definition newer_count (entries : list dirent) (e : dirent) : nat :=
  length (List.filter (λ x, entry_iteration e <? entry_iteration x) entries).

(** The exit code of a run of [main]. *)
Definition exit_code (r : outcome Z * world) : option Z :=
  match r.1 with
  | Ok code => Some code
  | Throw _ => None
  end.

(** The status of the path cannot be read: [fs::exists] throws on it. *)
Definition status_unreadable (fs : gmap string node) (p : string) : Prop :=
  ∃ cause, fs !! p = Some (Unlistable {| f_stage := AtStatus; f_cause := cause |}).

(** The public member functions.  The data members are [const] and no
    member function assigns one: a call hands the object on as it got it,
    together with the world it leaves. *)
Inductive call : Type := call_cleanup | call_getAvailableIterations.

Definition run_call (c : call) (this : RestartCleaner) (w : world)
    : RestartCleaner * world :=
  match c with
  | call_cleanup => (this, (cleanup this w).2)
  | call_getAvailableIterations => (this, (getAvailableIterations this w).2)
  end.

Fixpoint run_calls (calls : list call) (this : RestartCleaner) (w : world)
    : RestartCleaner * world :=
  match calls with
  | [] => (this, w)
  | c :: rest => let '(this', w') := run_call c this w in run_calls rest this' w'
  end.

(** * Tactics *)

(** Closes a decidable closed goal, such as the distinctness of the names of
    a concrete directory, by evaluating its decision procedure. *)
Ltac by_evaluation := apply (bool_decide_unpack _); vm_compute; exact I.

(** * Characters *)

Lemma char_code_range c : 0 ≤ char_code c < 256.
Proof.
  unfold char_code. pose proof (nat_ascii_bounded c). lia.
Qed.

Lemma char_code_digit_char v : 0 ≤ v ≤ 9 → char_code (digit_char v) = 48 + v.
Proof.
  intros Hv. unfold char_code, digit_char.
  rewrite nat_ascii_embedding by lia. lia.
Qed.

Lemma isdigit_bounds c : isdigit c = true ↔ 48 ≤ char_code c ≤ 57.
Proof. unfold isdigit. rewrite andb_true_iff, !Z.leb_le. tauto. Qed.

Lemma isdigit_digit_char v : 0 ≤ v ≤ 9 → isdigit (digit_char v) = true.
Proof. intros Hv. apply isdigit_bounds. rewrite char_code_digit_char; lia. Qed.

Lemma digit_char_of_code c : isdigit c = true → digit_char (char_code c - 48) = c.
Proof.
  intros Hc%isdigit_bounds. unfold digit_char, char_code in *.
  replace (48 + Z.to_nat (Z.of_nat (nat_of_ascii c) - 48))%nat with (nat_of_ascii c) by lia.
  apply ascii_nat_embedding.
Qed.

Lemma isdigit_not_space c : isdigit c = true → isspace c = false.
Proof.
  intros Hc%isdigit_bounds. unfold isspace.
  apply orb_false_iff; split; [apply Z.eqb_neq; lia|].
  apply andb_false_iff; right. apply Z.leb_gt; lia.
Qed.

Lemma isdigit_not_sign c : isdigit c = true → Ascii.eqb c "-" = false ∧ Ascii.eqb c "+" = false.
Proof.
  intros Hc%isdigit_bounds.
  split; apply Ascii.eqb_neq; intros ->.
  - change (char_code "-") with 45 in Hc. lia.
  - change (char_code "+") with 43 in Hc. lia.
Qed.

(** * stoi on a run of digits *)

Lemma read_digits_digits acc cs :
  forallb isdigit cs = true →
  read_digits acc (string_of_list_ascii cs) = foldl (λ a c, 10 * a + (char_code c - 48)) acc cs.
Proof.
  revert acc; induction cs as [|c cs IH]; intros acc H; simpl in *; [done|].
  apply andb_true_iff in H as [Hc Hcs]. rewrite Hc. by apply IH.
Qed.

Lemma stoi_digits c cs :
  forallb isdigit (c :: cs) = true →
  stoi (string_of_list_ascii (c :: cs)) =
    let v := foldl (λ a c, 10 * a + (char_code c - 48)) 0 (c :: cs) in
    if (INT_MIN <=? v) && (v <=? INT_MAX) then Ok v else Throw (out_of_range "stoi").
Proof.
  intros H. pose proof H as H'. simpl in H'. apply andb_true_iff in H' as [Hc Hcs].
  unfold stoi. cbn [string_of_list_ascii skip_space].
  rewrite (isdigit_not_space c Hc).
  destruct (isdigit_not_sign c Hc) as [-> ->].
  rewrite Hc.
  change (String c (string_of_list_ascii cs)) with (string_of_list_ascii (c :: cs)).
  by rewrite read_digits_digits.
Qed.

(** * The shape test of parseIterationNum *)

Lemma restart_name_shape cs :
  length cs = 6%nat →
  let s := "restore." ++ string_of_list_ascii cs in
  String.length s = 14%nat ∧ substr 0 8 s = "restore." ∧
  substr_from 8 s = string_of_list_ascii cs ∧
  String.length (substr_from 8 s) = 6%nat.
Proof.
  intros Hlen.
  do 6 (destruct cs as [|? cs]; [discriminate Hlen|]).
  destruct cs; [|discriminate Hlen]. cbv. done.
Qed.

Lemma shape_restart_name s :
  String.length s = 14%nat → substr 0 8 s = "restore." →
  ∃ cs, length cs = 6%nat ∧ s = "restore." ++ string_of_list_ascii cs
        ∧ substr_from 8 s = string_of_list_ascii cs.
Proof.
  intros Hlen Hpre.
  do 14 (destruct s as [|? s]; [discriminate Hlen|]).
  destruct s; [|discriminate Hlen].
  cbv in Hpre. injection Hpre as -> -> -> -> -> -> -> ->.
  eexists [_; _; _; _; _; _]. cbv. done.
Qed.

Lemma parseIterationNum_with_cases conv s :
  (∃ cs, length cs = 6%nat ∧ forallb isdigit cs = true ∧
         s = "restore." ++ string_of_list_ascii cs ∧
         substr_from 8 s = string_of_list_ascii cs ∧
         parseIterationNum_with conv s =
           match conv (string_of_list_ascii cs) with Ok n => n | Throw _ => -1 end)
  ∨ ((∀ cs, length cs = 6%nat → forallb isdigit cs = true →
            s ≠ "restore." ++ string_of_list_ascii cs) ∧
     parseIterationNum_with conv s = -1).
Proof.
  unfold parseIterationNum_with.
  destruct (String.length s =? 14)%nat eqn:Hlen; simpl.
  2:{ right. split; [|done]. intros cs Hcs _ ->.
      destruct (restart_name_shape cs Hcs) as (Hl & _). simpl in Hl.
      apply Nat.eqb_neq in Hlen. done. }
  apply Nat.eqb_eq in Hlen.
  destruct (String.eqb (substr 0 8 s) "restore.") eqn:Hpre; simpl.
  2:{ right. split; [|done]. intros cs Hcs _ ->.
      destruct (restart_name_shape cs Hcs) as (_ & Hp & _). simpl in Hp.
      apply String.eqb_neq in Hpre. done. }
  apply String.eqb_eq in Hpre.
  destruct (shape_restart_name s Hlen Hpre) as (cs & Hcs & Hs & Hsub).
  destruct (restart_name_shape cs Hcs) as (_ & _ & _ & Hl6). simpl in Hl6.
  rewrite <- Hs in Hl6. rewrite Hl6. simpl. rewrite Hsub.
  rewrite list_ascii_of_string_of_list_ascii.
  destruct (forallb isdigit cs) eqn:Hdig; simpl.
  - left. exists cs. done.
  - right. split; [|done]. intros cs' Hcs' Hdig' Hs'.
    rewrite Hs in Hs'. apply (f_equal (substr_from 8)) in Hs'.
    destruct (restart_name_shape cs Hcs) as (_ & _ & E1 & _).
    destruct (restart_name_shape cs' Hcs') as (_ & _ & E2 & _).
    simpl in E1, E2. rewrite E1, E2 in Hs'.
    apply (f_equal list_ascii_of_string) in Hs'.
    rewrite !list_ascii_of_string_of_list_ascii in Hs'. congruence.
Qed.

(** Six digits stay below a million, so the conversion cannot fail. *)
Lemma six_digits_value cs :
  length cs = 6%nat → forallb isdigit cs = true →
  let v := foldl (λ a c, 10 * a + (char_code c - 48)) 0 cs in
  0 ≤ v ≤ 999999 ∧ stoi (string_of_list_ascii cs) = Ok v.
Proof.
  intros Hlen Hdig.
  do 6 (destruct cs as [|? cs]; [discriminate Hlen|]).
  destruct cs; [|discriminate Hlen].
  rewrite stoi_digits by done.
  cbn [forallb] in Hdig. rewrite !andb_true_iff in Hdig.
  destruct Hdig as (H1%isdigit_bounds & H2%isdigit_bounds & H3%isdigit_bounds &
                    H4%isdigit_bounds & H5%isdigit_bounds & H6%isdigit_bounds & _).
  cbn [foldl]. cbv zeta.
  set (v := 10 * _ + _).
  assert (0 ≤ v ≤ 999999) as Hv by (subst v; lia).
  split; [done|].
  replace ((INT_MIN <=? v) && (v <=? INT_MAX)) with true; [done|].
  symmetry. apply andb_true_iff. unfold INT_MIN, INT_MAX. rewrite !Z.leb_le. lia.
Qed.

Lemma digits_of_chars_from acc cs :
  forallb isdigit cs = true →
  Forall (λ v, 0 ≤ v ≤ 9) ((λ c, char_code c - 48) <$> cs) ∧
  cs = digit_char <$> ((λ c, char_code c - 48) <$> cs) ∧
  foldl (λ a c, 10 * a + (char_code c - 48)) acc cs
    = foldl (λ a v, 10 * a + v) acc ((λ c, char_code c - 48) <$> cs).
Proof.
  revert acc. induction cs as [|c cs IH]; intros acc Hdig.
  - simpl. repeat split; constructor.
  - simpl in Hdig. apply andb_true_iff in Hdig as [Hc Hcs].
    destruct (IH (10 * acc + (char_code c - 48)) Hcs) as (HF & Hmap & Hfold).
    split; [|split].
    + constructor; [|done]. apply isdigit_bounds in Hc. lia.
    + simpl. f_equal; [|done]. symmetry. by apply digit_char_of_code.
    + simpl. exact Hfold.
Qed.

Lemma digits_of_chars cs :
  forallb isdigit cs = true →
  ∃ d, length d = length cs ∧ Forall (λ v, 0 ≤ v ≤ 9) d ∧ cs = digit_char <$> d ∧
       foldl (λ a c, 10 * a + (char_code c - 48)) 0 cs = decimal d.
Proof.
  intros Hdig. exists ((λ c, char_code c - 48) <$> cs).
  split; [by rewrite length_fmap|]. by apply digits_of_chars_from.
Qed.

Lemma chars_of_digits d :
  Forall (λ v, 0 ≤ v ≤ 9) d →
  forallb isdigit (digit_char <$> d) = true ∧
  ∀ acc, foldl (λ a c, 10 * a + (char_code c - 48)) acc (digit_char <$> d)
         = foldl (λ a v, 10 * a + v) acc d.
Proof.
  induction 1 as [|v d Hv Hd [IH1 IH2]]; [done|].
  rewrite fmap_cons. split.
  - cbn [forallb]. rewrite isdigit_digit_char by done. done.
  - intros acc. cbn [foldl]. rewrite char_code_digit_char by done.
    rewrite IH2. f_equal. lia.
Qed.

(** * parseIterationNum against the naming convention *)

Lemma parseIterationNum_cases s :
  (∃ d, length d = 6%nat ∧ Forall (λ v, 0 ≤ v ≤ 9) d ∧ s = restart_name d ∧
        parseIterationNum s = decimal d ∧ 0 ≤ decimal d ≤ 999999 ∧
        ∃ n, stoi (substr_from 8 s) = Ok n)
  ∨ (¬ valid_restart_name s ∧ parseIterationNum s = -1).
Proof.
  unfold parseIterationNum.
  destruct (parseIterationNum_with_cases stoi s)
    as [(cs & Hlen & Hdig & Hs & Hsub & Hp)|[Hno Hp]].
  - left. destruct (digits_of_chars cs Hdig) as (d & Hd & HF & Hcs & Hval).
    destruct (six_digits_value cs Hlen Hdig) as [Hrange Hstoi]. cbv zeta in *.
    exists d. rewrite Hp, Hsub, Hstoi, <- Hval. unfold restart_name.
    rewrite <- Hcs. repeat split; try done; try lia. by eexists.
  - right. split; [|done]. intros (d & Hd & HF & ->).
    destruct (chars_of_digits d HF) as [Hdig _].
    apply (Hno (digit_char <$> d)); [by rewrite length_fmap|done|done].
Qed.

Lemma parseIterationNum_restart_name d :
  length d = 6%nat → Forall (λ v, 0 ≤ v ≤ 9) d →
  parseIterationNum (restart_name d) = decimal d ∧ 0 ≤ decimal d ≤ 999999.
Proof.
  intros Hlen HF. unfold parseIterationNum.
  destruct (chars_of_digits d HF) as [Hdig Hfold].
  assert (length (digit_char <$> d) = 6%nat) as Hlen' by by rewrite length_fmap.
  destruct (parseIterationNum_with_cases stoi (restart_name d))
    as [(cs & Hcs & Hdig' & Hs & Hsub & Hp)|[Hno Hp]].
  - destruct (restart_name_shape _ Hlen') as (_ & _ & E & _). cbv zeta in E.
    fold (restart_name d) in E. rewrite E in Hsub.
    destruct (six_digits_value _ Hlen' Hdig) as [Hrange Hstoi]. cbv zeta in *.
    rewrite Hp, <- Hsub, Hstoi. rewrite Hfold in Hrange |- *. done.
  - exfalso. by apply (Hno (digit_char <$> d)).
Qed.

Lemma parseIterationNum_range s :
  parseIterationNum s = -1 ∨ 0 ≤ parseIterationNum s ≤ 999999.
Proof.
  destruct (parseIterationNum_cases s) as [(d & _ & _ & _ & -> & ? & _)|[_ ?]]; auto.
Qed.

Lemma decimal_inj d1 d2 :
  length d1 = 6%nat → length d2 = 6%nat →
  Forall (λ v, 0 ≤ v ≤ 9) d1 → Forall (λ v, 0 ≤ v ≤ 9) d2 →
  decimal d1 = decimal d2 → d1 = d2.
Proof.
  intros L1 L2 F1 F2.
  do 6 (destruct d1 as [|? d1]; [discriminate L1|]). destruct d1; [|discriminate L1].
  do 6 (destruct d2 as [|? d2]; [discriminate L2|]). destruct d2; [|discriminate L2].
  repeat match goal with H : Forall _ (_ :: _) |- _ => apply Forall_cons in H as [? H] end.
  unfold decimal. cbn [foldl]. intros E.
  repeat f_equal; lia.
Qed.

(** Two names with the same iteration number are the same name. *)
Lemma parseIterationNum_inj a b :
  0 ≤ parseIterationNum a → parseIterationNum a = parseIterationNum b → a = b.
Proof.
  intros Ha E.
  destruct (parseIterationNum_cases a) as [(d1 & L1 & F1 & -> & P1 & _)|[_ ?]]; [|lia].
  destruct (parseIterationNum_cases b) as [(d2 & L2 & F2 & -> & P2 & _)|[_ ?]]; [|lia].
  f_equal. apply decimal_inj; congruence.
Qed.

(** C2: [parseIterationNum] returns a non-negative number exactly for the
    names made of the prefix "restore." and six decimal digits, and nothing
    else; on such a name the result is the base-10 value of the digits,
    leading zeros included; on every other name it is the sentinel -1, and so
    it is whenever the numeric conversion throws; "restore.000000" gives 0
    and "restore.000001" gives 1. *)
Theorem C2_parseIterationNum_spec (dirname : string) :
  (0 ≤ parseIterationNum dirname ↔ valid_restart_name dirname) ∧
  (∀ d, length d = 6%nat → Forall (λ v, 0 ≤ v ≤ 9) d →
        parseIterationNum (restart_name d) = decimal d) ∧
  (¬ valid_restart_name dirname → parseIterationNum dirname = -1) ∧
  (∀ conv e, conv (substr_from 8 dirname) = Throw e →
             parseIterationNum_with conv dirname = -1) ∧
  parseIterationNum "restore.000000" = 0 ∧
  parseIterationNum "restore.000001" = 1.
Proof.
  split; [|split; [|split; [|split; [|split]]]].
  - destruct (parseIterationNum_cases dirname)
      as [(d & L & F & E & P & R & _)|[Hno P]].
    + split; [|lia]. intros _. by exists d.
    + split; [lia|done].
  - intros d L F. by apply parseIterationNum_restart_name.
  - intros Hno.
    destruct (parseIterationNum_cases dirname) as [(d & L & F & E & _)|[_ P]]; [|done].
    exfalso. apply Hno. by exists d.
  - intros conv e Hconv.
    destruct (parseIterationNum_with_cases conv dirname)
      as [(cs & _ & _ & _ & Hsub & ->)|[_ ->]]; [|done].
    by rewrite <- Hsub, Hconv.
  - vm_compute. done.
  - vm_compute. done.
Qed.

Lemma C2_parseIterationNum_spec_witness :
  (0 ≤ parseIterationNum "restore.000100" ↔ valid_restart_name "restore.000100") ∧
  parseIterationNum (restart_name [0; 0; 2; 5; 0; 0]) = 2500 ∧
  parseIterationNum_with (λ _, Throw (out_of_range "stoi")) "restore.000100" = -1.
Proof.
  pose proof (C2_parseIterationNum_spec "restore.000100") as (H1 & H2 & _ & H4 & _).
  split; [exact H1|]. split.
  - apply (H2 [0; 0; 2; 5; 0; 0]); [reflexivity|].
    repeat constructor; lia.
  - apply (H4 (λ _, Throw (out_of_range "stoi")) (out_of_range "stoi")). reflexivity.
Defined.

(** C10: the result of [parseIterationNum] is -1 or lies between 0 and
    999999; once the length, prefix and digit tests have passed, [std::stoi]
    returns a value between 0 and 999999, which fits an [int], so the
    [catch] branch around the conversion is never taken. *)
Theorem C10_parseIterationNum_range (dirname : string) :
  (parseIterationNum dirname = -1 ∨ 0 ≤ parseIterationNum dirname ≤ 999999) ∧
  (String.length dirname = 14%nat →
   substr 0 8 dirname = "restore." →
   forallb isdigit (list_ascii_of_string (substr_from 8 dirname)) = true →
   ∃ n, stoi (substr_from 8 dirname) = Ok n ∧ 0 ≤ n ≤ 999999 ∧ INT_MIN ≤ n ≤ INT_MAX).
Proof.
  split; [apply parseIterationNum_range|].
  intros Hlen Hpre Hdig.
  destruct (shape_restart_name dirname Hlen Hpre) as (cs & Hcs & Hs & Hsub).
  rewrite Hsub in *. rewrite list_ascii_of_string_of_list_ascii in Hdig.
  destruct (six_digits_value cs Hcs Hdig) as [Hr Hstoi]. cbv zeta in *.
  eexists; split; [exact Hstoi|]. unfold INT_MIN, INT_MAX. lia.
Qed.

Lemma C10_parseIterationNum_range_witness :
  ∃ n, stoi (substr_from 8 "restore.999999") = Ok n ∧ 0 ≤ n ≤ 999999
       ∧ INT_MIN ≤ n ≤ INT_MAX.
Proof.
  apply (C10_parseIterationNum_range "restore.999999"); reflexivity.
Defined.

(** * Running the monad *)

Lemma bind_run {A B} (m : M A) (k : A → M B) w :
  bind m k w = match m w with
               | (Ok a, w') => k a w'
               | (Throw e, w') => (Throw e, w')
               end.
Proof. reflexivity. Qed.

Lemma print_run s text w : print s text w = (Ok tt, with_output w [(s, text)]).
Proof. reflexivity. Qed.

Lemma with_output_nil w : with_output w [] = w.
Proof. destruct w. unfold with_output. simpl. by rewrite app_nil_r. Qed.

Lemma with_output_app w l1 l2 :
  with_output (with_output w l1) l2 = with_output w (l1 ++ l2)%list.
Proof. unfold with_output. simpl. by rewrite app_assoc. Qed.

Lemma w_fs_with_output w l : w_fs (with_output w l) = w_fs w.
Proof. reflexivity. Qed.

(** Runs the prints at the head of a monadic computation. *)
Ltac run_prints :=
  unfold cout, cerr; repeat (rewrite bind_run, print_run); rewrite ?print_run.

(** * The scan *)

Lemma collect_restart_dirs_filter base entries :
  collect_restart_dirs base entries = entry_path base <$> List.filter valid_entry entries.
Proof.
  induction entries as [|e es IH]; [done|].
  cbn [collect_restart_dirs List.filter]. unfold valid_entry at 1.
  destruct (d_is_directory e); simpl; [|done].
  destruct (0 <=? parseIterationNum (d_name e)); simpl; [|done].
  by rewrite IH.
Qed.

Lemma valid_entry_iteration e : valid_entry e = true → 0 ≤ entry_iteration e.
Proof.
  unfold valid_entry, entry_iteration. intros [_ H]%andb_true_iff. by apply Z.leb_le.
Qed.

Lemma collect_dirs_with_iter_valid base es :
  Forall (λ e, valid_entry e = true) es →
  collect_dirs_with_iter (entry_path base <$> es) = entry_pair base <$> es.
Proof.
  induction 1 as [|e es He _ IH]; [done|].
  rewrite !fmap_cons. cbn [collect_dirs_with_iter entry_path filename].
  apply valid_entry_iteration, Z.leb_le in He. unfold entry_iteration in He.
  rewrite He, IH. done.
Qed.

Lemma collect_iterations_valid base es :
  Forall (λ e, valid_entry e = true) es →
  collect_iterations (entry_path base <$> es) = entry_iteration <$> es.
Proof.
  induction 1 as [|e es He _ IH]; [done|].
  rewrite !fmap_cons. cbn [collect_iterations entry_path filename].
  apply valid_entry_iteration, Z.leb_le in He. unfold entry_iteration in He.
  rewrite He, IH. done.
Qed.

Lemma Forall_filter_valid (entries : list dirent) :
  Forall (λ e, valid_entry e = true) (List.filter valid_entry entries).
Proof. apply List.Forall_forall. intros e [_ H]%filter_In. done. Qed.

Lemma getAllRestartDirs_run base w :
  getAllRestartDirs base w =
    match w_fs w !! base with
    | None => (Ok [], w)
    | Some (Listable children) =>
        (Ok (entry_path base <$> List.filter valid_entry children), w)
    | Some (Unlistable cause) =>
        (Throw (runtime_error ("RestartCleaner: Error scanning directory: " ++ cause)), w)
    end.
Proof.
  unfold getAllRestartDirs, try_catch, bind, fs_exists, directory_iterator, ret, throw.
  destruct (w_fs w !! base) as [[children|[[] cause]]|] eqn:E; cbn [f_cause].
  - rewrite E. by rewrite collect_restart_dirs_filter.
  - done.
  - by rewrite E.
  - by rewrite E.
  - done.
Qed.

(** * Distinct names *)

Lemma valid_entries_NoDup_names (cs : list dirent) :
  NoDup (d_name <$> cs) → NoDup (d_name <$> List.filter valid_entry cs).
Proof.
  induction cs as [|c cs IH]; [done|].
  rewrite fmap_cons, NoDup_cons. intros [Hc Hcs]. cbn [List.filter].
  destruct (valid_entry c); [|by apply IH].
  rewrite fmap_cons, NoDup_cons. split; [|by apply IH].
  intros (x & Hx & Hin)%list_elem_of_fmap. apply Hc.
  apply list_elem_of_fmap. exists x. split; [done|].
  apply list_elem_of_In. apply list_elem_of_In, filter_In in Hin. tauto.
Qed.

Lemma NoDup_names_inj (cs : list dirent) a b :
  NoDup (d_name <$> cs) → a ∈ cs → b ∈ cs → d_name a = d_name b → a = b.
Proof.
  induction cs as [|c cs IH]; [by intros _ ?%elem_of_nil|].
  rewrite fmap_cons, NoDup_cons. intros [Hc Hcs] Ha Hb E.
  apply elem_of_cons in Ha as [->|Ha]; apply elem_of_cons in Hb as [->|Hb]; auto.
  - exfalso. apply Hc. rewrite E. by apply list_elem_of_fmap_2.
  - exfalso. apply Hc. rewrite <- E. by apply list_elem_of_fmap_2.
Qed.

Lemma valid_entries_NoDup_iterations (es : list dirent) :
  Forall (λ e, valid_entry e = true) es →
  NoDup (d_name <$> es) → NoDup (entry_iteration <$> es).
Proof.
  induction 1 as [|e es He Hes IH]; [constructor|].
  rewrite !fmap_cons, !NoDup_cons. intros [Hn Hnd]. split; [|by apply IH].
  intros (x & Hx & Hin)%list_elem_of_fmap. apply Hn.
  apply list_elem_of_fmap. exists x. split; [|done].
  apply parseIterationNum_inj; [by apply valid_entry_iteration|done].
Qed.

(** At most a million names carry distinct iteration numbers. *)
Lemma NoDup_range_length (l : list Z) :
  NoDup l → Forall (λ i, 0 ≤ i ≤ 999999) l → Z.of_nat (length l) ≤ 1000000.
Proof.
  intros Hnd Hr.
  assert (NoDup (Z.to_nat <$> l)) as Hnd'.
  { clear -Hnd Hr. induction Hr as [|i l Hi Hl IH]; [constructor|].
    apply NoDup_cons in Hnd as [Hni Hnd]. rewrite fmap_cons. apply NoDup_cons.
    split; [|by apply IH].
    intros (j & Hj & Hin)%list_elem_of_fmap.
    rewrite Forall_forall in Hl. specialize (Hl j Hin).
    assert (i = j) by lia. by subst. }
  assert (Z.to_nat <$> l ⊆ seq 0 (Z.to_nat 1000000)) as Hsub.
  { intros n (i & -> & Hin)%list_elem_of_fmap.
    rewrite Forall_forall in Hr. specialize (Hr i Hin).
    apply list_elem_of_In, in_seq. lia. }
  pose proof (submseteq_length _ _ (NoDup_submseteq _ _ Hnd' Hsub)) as Hlen.
  rewrite length_seq, length_fmap in Hlen. lia.
Qed.

Lemma valid_entries_length (cs : list dirent) :
  NoDup (d_name <$> cs) → Z.of_nat (length (List.filter valid_entry cs)) ≤ 1000000.
Proof.
  intros Hnd.
  rewrite <- (length_fmap entry_iteration).
  apply NoDup_range_length.
  - apply valid_entries_NoDup_iterations; [apply Forall_filter_valid|].
    by apply valid_entries_NoDup_names.
  - apply Forall_fmap, Forall_forall. intros e He.
    apply list_elem_of_In, filter_In in He as [_ He]. simpl.
    pose proof (valid_entry_iteration e He) as H0.
    unfold entry_iteration in *.
    destruct (parseIterationNum_range (d_name e)); lia.
Qed.

(** * The order of the sort *)

Lemma path_compare_antisym p q : path_compare p q = CompOpp (path_compare q p).
Proof.
  unfold path_compare.
  rewrite (String.compare_antisym (parent q) (parent p)).
  destruct (String.compare (parent p) (parent q)); simpl; try done.
  apply String.compare_antisym.
Qed.

Lemma pair_lt_asym a b : pair_lt a b = true → pair_lt b a = false.
Proof.
  unfold pair_lt. rewrite (path_compare_antisym b.2 a.2).
  destruct (Z.ltb_spec a.1 b.1), (Z.ltb_spec b.1 a.1),
    (Z.eqb_spec a.1 b.1), (Z.eqb_spec b.1 a.1); simpl; try lia; try done.
  destruct (path_compare a.2 b.2); simpl; done.
Qed.

#[local] Instance pair_le_total : Total pair_le.
Proof.
  intros a b. unfold pair_le.
  destruct (pair_lt b a) eqn:E; [right; by apply pair_lt_asym|by left].
Qed.

Lemma pair_le_fst a b : pair_le a b → a.1 ≤ b.1.
Proof.
  unfold pair_le, pair_lt. intros [H _]%orb_false_iff. by apply Z.ltb_ge in H.
Qed.

(** The sorted vector lists the valid entries in strictly ascending order of
    their iteration numbers. *)
Lemma sort_pairs_entries base (es : list dirent) :
  NoDup (entry_iteration <$> es) →
  ∃ ordered : list dirent,
    sort_pairs (entry_pair base <$> es) = entry_pair base <$> ordered ∧
    ordered ≡ₚ es ∧
    StronglySorted (λ a b, entry_iteration a < entry_iteration b) ordered.
Proof.
  intros Hnd.
  pose proof (merge_sort_Permutation pair_le (entry_pair base <$> es)) as Hperm.
  fold (sort_pairs (entry_pair base <$> es)) in Hperm.
  destruct (Permutation_map_inv _ _ Hperm) as (ordered & Hord & Hp).
  exists ordered. split; [done|]. split; [done|].
  pose proof (Sorted_merge_sort pair_le (entry_pair base <$> es)) as Hsorted.
  fold (sort_pairs (entry_pair base <$> es)) in Hsorted. rewrite Hord in Hsorted.
  assert (NoDup (entry_iteration <$> ordered)) as Hnd'.
  { eapply NoDup_Permutation_proper; [|exact Hnd]. by apply fmap_Permutation. }
  clear -Hsorted Hnd'.
  assert (StronglySorted (λ a b, entry_iteration a ≤ entry_iteration b) ordered) as Hss.
  { apply Sorted_StronglySorted; [intros x y z; lia|].
    clear Hnd'. induction ordered as [|e es IH]; [constructor|].
    rewrite fmap_cons in Hsorted. apply Sorted_inv in Hsorted as [Hs Hhd].
    constructor; [by apply IH|].
    destruct es as [|e' es]; constructor.
    rewrite fmap_cons in Hhd. apply HdRel_inv in Hhd. apply pair_le_fst in Hhd. done. }
  clear Hsorted. induction Hss as [|e es Hes IH Hall]; [constructor|].
  rewrite fmap_cons in Hnd'. apply NoDup_cons in Hnd' as [Hne Hnd'].
  constructor; [by apply IH|].
  rewrite List.Forall_forall in Hall |- *. intros x Hx.
  specialize (Hall x Hx).
  assert (entry_iteration e ≠ entry_iteration x).
  { intros E. apply Hne. rewrite E. apply list_elem_of_fmap_2, list_elem_of_In, Hx. }
  lia.
Qed.

(** * The deletion loop *)

Lemma delete_loop_list dry dirs (i n : nat) :
  (i + n ≤ length dirs)%nat →
  delete_loop dry dirs i n = delete_list dry (take n (drop i dirs)).
Proof.
  revert i. induction n as [|n IH]; intros i Hlen; [done|].
  cbn [delete_loop].
  destruct (dirs !! i) as [d|] eqn:E.
  2:{ apply lookup_ge_None in E. lia. }
  rewrite (drop_S _ _ _ E). cbn [take delete_list].
  rewrite IH by lia. done.
Qed.

Lemma delete_list_dry base (es : list dirent) w :
  delete_list true (entry_pair base <$> es) w
  = (Ok tt, with_output w (report_line true base <$> es)).
Proof.
  revert w. induction es as [|e es IH]; intros w.
  - cbn. by rewrite with_output_nil.
  - rewrite fmap_cons. cbn [delete_list]. rewrite bind_run.
    unfold delete_one, cout. rewrite print_run, IH, with_output_app. done.
Qed.

Lemma find_by_name (cs : list dirent) e :
  NoDup (d_name <$> cs) → e ∈ cs →
  find (λ x, String.eqb (d_name x) (d_name e)) cs = Some e.
Proof.
  intros Hnd Hin.
  destruct (find _ cs) as [x|] eqn:E.
  - apply find_some in E as [Hx Hn]. apply String.eqb_eq in Hn.
    f_equal. eapply NoDup_names_inj; eauto. by apply list_elem_of_In.
  - exfalso. apply list_elem_of_In in Hin.
    pose proof (find_none _ _ E e Hin) as H. simpl in H.
    by rewrite String.eqb_refl in H.
Qed.

Lemma filter_filter_bool {A} (p q : A → bool) (l : list A) :
  List.filter p (List.filter q l) = List.filter (λ x, q x && p x) l.
Proof.
  induction l as [|x l IH]; [done|]. cbn [List.filter].
  destruct (q x); simpl; [|done]. destruct (p x); by rewrite IH.
Qed.

Lemma filter_all_true {A} (p : A → bool) (l : list A) :
  (∀ x, In x l → p x = true) → List.filter p l = l.
Proof.
  induction l as [|x l IH]; [done|]. intros H. cbn [List.filter].
  rewrite (H x) by by left. f_equal. apply IH. intros; apply H. by right.
Qed.

Lemma NoDup_names_filter (p : dirent → bool) (cs : list dirent) :
  NoDup (d_name <$> cs) → NoDup (d_name <$> List.filter p cs).
Proof.
  induction cs as [|c cs IH]; [done|].
  rewrite fmap_cons, NoDup_cons. intros [Hc Hcs]. cbn [List.filter].
  destruct (p c); [|by apply IH].
  rewrite fmap_cons, NoDup_cons. split; [|by apply IH].
  intros (x & Hx & Hin)%list_elem_of_fmap. apply Hc.
  apply list_elem_of_fmap. exists x. split; [done|].
  apply list_elem_of_In. apply list_elem_of_In, filter_In in Hin. tauto.
Qed.

Lemma delete_list_wet base (es cs : list dirent) w :
  w_fs w !! base = Some (Listable cs) →
  NoDup (d_name <$> cs) → NoDup es → (∀ e, e ∈ es → e ∈ cs) →
  delete_list false (entry_pair base <$> es) w
  = (Ok tt,
     {| w_fs := <[base := Listable (List.filter (survives false es) cs)]> (w_fs w);
        w_out := (w_out w ++ (report_line false base <$> es))%list |}).
Proof.
  revert cs w. induction es as [|e es IH]; intros cs w Hfs Hnd Hes Hsub.
  - cbn. rewrite filter_all_true by done. rewrite insert_id by done.
    rewrite app_nil_r. by destruct w.
  - apply NoDup_cons in Hes as [Hne Hes].
    assert (e ∈ cs) as Hin by (apply Hsub; left).
    rewrite fmap_cons. cbn [delete_list]. rewrite bind_run.
    unfold delete_one, try_catch. rewrite bind_run.
    unfold remove_all. cbn [entry_pair snd entry_path parent filename].
    rewrite Hfs, (find_by_name cs e Hnd Hin).
    destruct (d_remove_error e) as [cause|] eqn:Herr.
    + cbn [what]. unfold cerr. rewrite print_run.
      rewrite (IH cs) by (try done; intros; apply Hsub; by right).
      unfold with_output. cbn [w_fs w_out]. f_equal. f_equal.
      * f_equal. f_equal. apply filter_ext_in. intros x Hx.
        unfold survives. cbn [orb].
        destruct (decide (x = e)) as [->|Hxe].
        -- rewrite Herr. rewrite (bool_decide_eq_true_2 (is_Some _)) by by eexists.
           by rewrite !orb_true_r.
        -- f_equal. f_equal. apply bool_decide_ext. rewrite elem_of_cons. tauto.
      * rewrite <- app_assoc. cbn. unfold report_line at 2. by rewrite Herr.
    + unfold cout. rewrite print_run.
      set (cs' := List.filter _ cs).
      rewrite (IH cs').
      * cbn [with_output w_fs w_out]. f_equal. f_equal.
        -- rewrite insert_insert_eq. f_equal. f_equal. subst cs'.
           rewrite filter_filter_bool. apply filter_ext_in. intros x Hx.
           unfold survives. cbn [orb].
           destruct (decide (x = e)) as [->|Hxe].
           ++ rewrite String.eqb_refl, Herr. cbn.
              rewrite (bool_decide_eq_true_2 (e ∈ e :: es)) by by left. done.
           ++ destruct (String.eqb_spec (d_name x) (d_name e)) as [E|_].
              { exfalso. apply Hxe. eapply NoDup_names_inj; eauto.
                by apply list_elem_of_In. }
              cbn. f_equal. f_equal. apply bool_decide_ext.
              rewrite elem_of_cons. tauto.
        -- rewrite <- app_assoc. cbn. unfold report_line at 2. by rewrite Herr.
      * cbn. by rewrite lookup_insert_eq.
      * by apply NoDup_names_filter.
      * done.
      * intros x Hx. subst cs'. apply list_elem_of_In, filter_In.
        split; [apply list_elem_of_In, Hsub; by right|].
        apply negb_true_iff, String.eqb_neq. intros E.
        assert (x = e); [|by subst].
        eapply NoDup_names_inj; eauto. apply Hsub. by right.
Qed.

(** * keepRecentN *)

Lemma to_int_small x : 0 ≤ x ≤ 1000000 → to_int x = x.
Proof. intros Hx. unfold to_int. rewrite Z.mod_small; lia. Qed.

Lemma to_size_t_small x : 0 ≤ x ≤ 1000000 → to_size_t x = x.
Proof. intros Hx. unfold to_size_t. rewrite Z.mod_small; lia. Qed.

(** No restart directory: the path is gone, or none of its children is one. *)
Lemma keepRecentN_none this w :
  (w_fs w !! d_restart_base_path this = None ∨
   ∃ cs, w_fs w !! d_restart_base_path this = Some (Listable cs)
         ∧ List.filter valid_entry cs = []) →
  keepRecentN this w = (Ok tt, with_output w [line_none]).
Proof.
  intros H. unfold keepRecentN. rewrite bind_run, getAllRestartDirs_run.
  destruct H as [->|(cs & -> & ->)]; done.
Qed.

Lemma keepRecentN_unlistable this w cause :
  w_fs w !! d_restart_base_path this = Some (Unlistable cause) →
  keepRecentN this w =
    (Throw (runtime_error ("RestartCleaner: Error scanning directory: " ++ cause)), w).
Proof.
  intros H. unfold keepRecentN. rewrite bind_run, getAllRestartDirs_run, H. done.
Qed.

Lemma sort_pairs_length l : length (sort_pairs l) = length l.
Proof. unfold sort_pairs. by rewrite merge_sort_Permutation. Qed.

Section Listable.

(** A cleaner whose base path can be listed and holds children with distinct
    names, as the children of a directory are. *)
Context (this : RestartCleaner) (w : world) (cs : list dirent).
Hypothesis Hfs : w_fs w !! d_restart_base_path this = Some (Listable cs).
Hypothesis Hnd : NoDup (d_name <$> cs).

(** Not more valid entries than the keep count. *)
Lemma keepRecentN_few :
  List.filter valid_entry cs ≠ [] →
  Z.of_nat (length (List.filter valid_entry cs)) ≤ d_keep_restart_count this →
  keepRecentN this w =
    (Ok tt, with_output w
       [line_found (Z.of_nat (length (List.filter valid_entry cs)));
        line_no_cleanup (Z.of_nat (length (List.filter valid_entry cs)))]).
Proof.
  intros Hne Hle.
  pose proof (valid_entries_length cs Hnd) as Hbound.
  unfold keepRecentN. rewrite bind_run, getAllRestartDirs_run, Hfs.
  set (valid := List.filter valid_entry cs) in *.
  destruct (entry_path _ <$> valid) as [|p ps] eqn:E.
  { destruct valid; [done|discriminate E]. }
  rewrite <- E. clear E p ps.
  rewrite bind_run. unfold cout. rewrite print_run.
  rewrite collect_dirs_with_iter_valid by apply Forall_filter_valid.
  rewrite sort_pairs_length, !length_fmap.
  rewrite to_int_small by lia.
  destruct (Z.leb_spec (Z.of_nat (length valid)) (d_keep_restart_count this)); [|lia].
  rewrite print_run, with_output_app. done.
Qed.

(** More valid entries than the keep count. *)
Lemma keepRecentN_many :
  0 < d_keep_restart_count this < Z.of_nat (length (List.filter valid_entry cs)) →
  ∃ del kept : list dirent,
    del ++ kept ≡ₚ List.filter valid_entry cs ∧
    Z.of_nat (length kept) = d_keep_restart_count this ∧
    StronglySorted (λ a b, entry_iteration a < entry_iteration b) (del ++ kept) ∧
    keepRecentN this w =
      (Ok tt,
       {| w_fs := <[d_restart_base_path this :=
                      Listable (List.filter (survives (d_dry_run this) del) cs)]> (w_fs w);
          w_out := (w_out w ++
             [line_found (Z.of_nat (length (List.filter valid_entry cs)));
              line_deleting (Z.of_nat (length del)) (d_keep_restart_count this)]
             ++ (report_line (d_dry_run this) (d_restart_base_path this) <$> del))%list |}).
Proof.
  intros [Hpos Hlt].
  pose proof (valid_entries_length cs Hnd) as Hbound.
  set (base := d_restart_base_path this) in *.
  set (keep := d_keep_restart_count this) in *.
  set (valid := List.filter valid_entry cs) in *.
  assert (NoDup (entry_iteration <$> valid)) as Hiter.
  { apply valid_entries_NoDup_iterations; [apply Forall_filter_valid|].
    by apply valid_entries_NoDup_names. }
  destruct (sort_pairs_entries base valid Hiter) as (ordered & Hsort & Hperm & Hss).
  assert (length ordered = length valid) as Hlen by by rewrite Hperm.
  set (m := (length valid - Z.to_nat keep)%nat).
  exists (take m ordered), (drop m ordered).
  rewrite take_drop. split; [done|]. split; [rewrite length_drop; lia|]. split; [done|].
  assert (Z.of_nat (length (take m ordered)) = Z.of_nat (length valid) - keep) as Hdel.
  { rewrite length_take. lia. }
  unfold keepRecentN. fold base keep. rewrite bind_run, getAllRestartDirs_run, Hfs.
  fold valid.
  destruct (entry_path _ <$> valid) as [|p ps] eqn:E.
  { destruct valid; [simpl in Hlt; lia|discriminate E]. }
  rewrite <- E. clear E p ps.
  rewrite bind_run. unfold cout. rewrite print_run.
  rewrite collect_dirs_with_iter_valid by apply Forall_filter_valid.
  rewrite sort_pairs_length, !length_fmap.
  rewrite to_int_small by lia.
  destruct (Z.leb_spec (Z.of_nat (length valid)) keep); [lia|].
  rewrite (to_size_t_small keep) by lia.
  rewrite to_size_t_small by lia. rewrite to_int_small by lia.
  rewrite bind_run, print_run, with_output_app.
  replace (Z.to_nat (Z.of_nat (length valid) - keep)) with m by lia.
  rewrite Hdel.
  rewrite delete_loop_list by (rewrite sort_pairs_length, length_fmap; lia).
  rewrite drop_0, Hsort, <- fmap_take.
  assert (∀ e, e ∈ take m ordered → e ∈ cs) as Hsub.
  { intros e He%elem_of_take. destruct He as (i & He & _).
    apply list_elem_of_lookup_2 in He. rewrite Hperm in He.
    apply list_elem_of_In, filter_In in He as [He _]. by apply list_elem_of_In. }
  destruct (d_dry_run this) eqn:Hdry.
  - rewrite delete_list_dry. unfold with_output. cbn [w_fs w_out].
    rewrite filter_all_true by done. rewrite insert_id by done.
    by rewrite <- app_assoc.
  - rewrite (delete_list_wet base _ cs); try done.
    + cbn [with_output w_fs w_out]. by rewrite <- app_assoc.
    + eapply NoDup_fmap_1 with (f := entry_iteration).
      rewrite fmap_take. eapply sublist_NoDup; [|apply sublist_take].
      eapply NoDup_Permutation_proper; [|exact Hiter]. by apply fmap_Permutation.
Qed.

End Listable.

(** Every retained entry stays among the children. *)
Lemma kept_survive dry (del kept cs : list dirent) k :
  NoDup (del ++ kept) → (∀ e, e ∈ kept → e ∈ cs) → k ∈ kept →
  k ∈ List.filter (survives dry del) cs.
Proof.
  intros Hnd Hsub Hk. apply list_elem_of_In, filter_In. split.
  - by apply list_elem_of_In, Hsub.
  - unfold survives. apply NoDup_app in Hnd as (_ & Hdisj & _).
    rewrite (bool_decide_eq_false_2 (k ∈ del)); [by rewrite orb_true_r|].
    intros Hin. by apply (Hdisj k).
Qed.

Lemma StronglySorted_lt_NoDup (l : list dirent) :
  StronglySorted (λ a b, entry_iteration a < entry_iteration b) l → NoDup l.
Proof.
  induction 1 as [|e l Hl IH Hall]; constructor; [|done].
  intros Hin. rewrite List.Forall_forall in Hall.
  specialize (Hall e (proj1 (list_elem_of_In _ _) Hin)). lia.
Qed.

Lemma StronglySorted_app_lt (l1 l2 : list dirent) a b :
  StronglySorted (λ a b, entry_iteration a < entry_iteration b) (l1 ++ l2) →
  a ∈ l1 → b ∈ l2 → entry_iteration a < entry_iteration b.
Proof.
  induction l1 as [|x l1 IH]; [by intros _ ?%elem_of_nil|].
  rewrite <- app_comm_cons. intros Hss Ha Hb.
  apply StronglySorted_inv in Hss as [Hss Hall].
  apply elem_of_cons in Ha as [->|Ha]; [|by apply IH].
  rewrite List.Forall_forall in Hall. apply Hall.
  apply list_elem_of_In, elem_of_app. by right.
Qed.

Lemma cleanup_run this w :
  cleanup this w =
    match keepRecentN this (with_output w (cleanup_header this)) with
    | (r, w') => (r, w')
    end.
Proof.
  unfold cleanup, executeStrategy, cout. rewrite bind_run, print_run, bind_run, print_run.
  rewrite with_output_app. cbn [app]. fold (cleanup_header this).
  by destruct (keepRecentN _ _) as [[]].
Qed.

(** * cleanup *)

(** The run of [cleanup] when more valid entries are found than are kept:
    shared by the statements on the deletion set and on failing removals. *)
Lemma cleanup_many this w cs :
  w_fs w !! d_restart_base_path this = Some (Listable cs) →
  NoDup (d_name <$> cs) →
  0 < d_keep_restart_count this < Z.of_nat (length (List.filter valid_entry cs)) →
  ∃ del kept : list dirent,
    del ++ kept ≡ₚ List.filter valid_entry cs ∧
    Z.of_nat (length kept) = d_keep_restart_count this ∧
    StronglySorted (λ a b, entry_iteration a < entry_iteration b) (del ++ kept) ∧
    cleanup this w =
      (Ok tt,
       {| w_fs := <[d_restart_base_path this :=
                      Listable (List.filter (survives (d_dry_run this) del) cs)]> (w_fs w);
          w_out := (w_out w ++ cleanup_header this ++
             [line_found (Z.of_nat (length (List.filter valid_entry cs)));
              line_deleting (Z.of_nat (length del)) (d_keep_restart_count this)]
             ++ (report_line (d_dry_run this) (d_restart_base_path this) <$> del))%list |}).
Proof.
  intros Hfs Hnd Hk.
  destruct (keepRecentN_many this (with_output w (cleanup_header this)) cs Hfs Hnd Hk)
    as (del & kept & Hperm & Hlen & Hss & Hrun).
  exists del, kept. repeat split; try done.
  rewrite cleanup_run, Hrun. cbn [with_output w_fs w_out].
  by rewrite <- !app_assoc.
Qed.

(** C1: when [cleanup] finds more valid entries than the keep count, the
    entries split into a deletion set and a retained set: the retained set
    has keep-count entries, the deletion set the others, every iteration
    number of the deletion set is below every one of the retained set, and
    the loop processes the deletion set in ascending order of iteration
    number, one report line per entry; the retained entries and everything
    outside the deletion set are still there afterwards. *)
Theorem C1_cleanup_deletes_oldest (this : RestartCleaner) (w : world) (cs : list dirent) :
  w_fs w !! d_restart_base_path this = Some (Listable cs) →
  NoDup (d_name <$> cs) →
  0 < d_keep_restart_count this →
  d_keep_restart_count this < Z.of_nat (length (List.filter valid_entry cs)) →
  ∃ del kept : list dirent,
    del ++ kept ≡ₚ List.filter valid_entry cs ∧
    Z.of_nat (length del) =
      Z.of_nat (length (List.filter valid_entry cs)) - d_keep_restart_count this ∧
    Z.of_nat (length kept) = d_keep_restart_count this ∧
    (∀ d k, d ∈ del → k ∈ kept → entry_iteration d < entry_iteration k) ∧
    StronglySorted (λ a b, entry_iteration a < entry_iteration b) del ∧
    (∃ w', cleanup this w = (Ok tt, w') ∧
       w_out w' = (w_out w ++ cleanup_header this ++
          [line_found (Z.of_nat (length (List.filter valid_entry cs)));
           line_deleting (Z.of_nat (length del)) (d_keep_restart_count this)]
          ++ (report_line (d_dry_run this) (d_restart_base_path this) <$> del))%list ∧
       w_fs w' !! d_restart_base_path this
         = Some (Listable (List.filter (survives (d_dry_run this) del) cs)) ∧
       (∀ k, k ∈ kept → k ∈ children_at (w_fs w') (d_restart_base_path this)) ∧
       (∀ e, e ∈ cs → e ∉ del → e ∈ children_at (w_fs w') (d_restart_base_path this))).
Proof.
  intros Hfs Hnd Hpos Hlt.
  destruct (cleanup_many this w cs Hfs Hnd (conj Hpos Hlt))
    as (del & kept & Hperm & Hlen & Hss & Hrun).
  exists del, kept.
  assert (length del + length kept = length (List.filter valid_entry cs))%nat as Hsum.
  { by rewrite <- Hperm, length_app. }
  split; [done|]. split; [lia|]. split; [done|].
  split; [intros d k; by apply StronglySorted_app_lt|].
  split; [by apply StronglySorted_app_1_l in Hss|].
  eexists. split; [exact Hrun|]. cbn [w_fs w_out]. split; [done|].
  unfold children_at. rewrite lookup_insert_eq. split; [done|]. split.
  - intros k Hk. apply (kept_survive _ del kept); [by apply StronglySorted_lt_NoDup| |done].
    intros e He. assert (e ∈ List.filter valid_entry cs) as Hin.
    { rewrite <- Hperm. apply elem_of_app. by right. }
    apply list_elem_of_In, filter_In in Hin as [Hin _]. by apply list_elem_of_In.
  - intros e He Hno. apply list_elem_of_In, filter_In. split; [by apply list_elem_of_In|].
    unfold survives. rewrite (bool_decide_eq_false_2 (e ∈ del)) by done.
    by rewrite orb_true_r.
Qed.

Lemma C1_cleanup_deletes_oldest_witness :
  ∃ del kept : list dirent,
    del ++ kept ≡ₚ List.filter valid_entry test_children ∧
    Z.of_nat (length del) = 6 ∧ Z.of_nat (length kept) = 3 ∧
    (∀ d k, d ∈ del → k ∈ kept → entry_iteration d < entry_iteration k) ∧
    ∃ w', cleanup (test_cleaner 3 false) test_world = (Ok tt, w') ∧
          ∀ k, k ∈ kept → k ∈ children_at (w_fs w') test_path.
Proof.
  destruct (C1_cleanup_deletes_oldest (test_cleaner 3 false) test_world test_children)
    as (del & kept & Hperm & Hdel & Hkept & Hlt & _ & w' & Hrun & _ & _ & Hk & _).
  - reflexivity.
  - by_evaluation.
  - reflexivity.
  - reflexivity.
  - exists del, kept. repeat split; try assumption. exists w'. split; assumption.
Defined.

(** The deletion-set example of the test suite: nine valid directories,
    keep count 3. *)
Example cleanup_test_environment :
  let r := cleanup (test_cleaner 3 false) test_world in
  r.1 = Ok tt ∧
  snd <$> drop 4 (w_out r.2) =
    [ "  Deleted " ++ quoted "test_restart_cleanup/restart_IB2d/restore.000001";
      "  Deleted " ++ quoted "test_restart_cleanup/restart_IB2d/restore.000100";
      "  Deleted " ++ quoted "test_restart_cleanup/restart_IB2d/restore.000200";
      "  Deleted " ++ quoted "test_restart_cleanup/restart_IB2d/restore.000300";
      "  Deleted " ++ quoted "test_restart_cleanup/restart_IB2d/restore.001000";
      "  Deleted " ++ quoted "test_restart_cleanup/restart_IB2d/restore.002500" ] ∧
  entry_iteration <$> List.filter valid_entry (children_at (w_fs r.2) test_path)
    = [3000; 999999; 5000].
Proof. repeat split; vm_compute; reflexivity. Qed.

(** C5: when the number of valid entries is at most the keep count (zero
    entries included), [cleanup] returns normally, leaves the filesystem as
    it was, whatever the dry-run flag, and reports "No restart directories
    found" where there is no entry and "No cleanup needed" otherwise. *)
Theorem C5_cleanup_keeps_all (this : RestartCleaner) (w : world) :
  let base := d_restart_base_path this in
  let n := Z.of_nat (length (List.filter valid_entry (children_at (w_fs w) base))) in
  (∀ cause, w_fs w !! base ≠ Some (Unlistable cause)) →
  NoDup (d_name <$> children_at (w_fs w) base) →
  n ≤ d_keep_restart_count this →
  ∃ w', cleanup this w = (Ok tt, w') ∧
        w_fs w' = w_fs w ∧
        w_out w' = (w_out w ++ cleanup_header this ++
                      (if n =? 0 then [line_none]
                       else [line_found n; line_no_cleanup n]))%list.
Proof.
  intros base n Hread Hnd Hle. subst n. unfold children_at in *.
  rewrite cleanup_run.
  destruct (w_fs w !! base) as [[cs|cause]|] eqn:Hfs.
  - destruct (List.filter valid_entry cs) as [|v vs] eqn:Hvalid.
    + rewrite keepRecentN_none by (right; exists cs; done).
      eexists. split; [done|]. split; [done|].
      cbn [with_output w_out length Z.of_nat Z.eqb]. by rewrite <- app_assoc.
    + rewrite (keepRecentN_few this _ cs); try done; [|by rewrite Hvalid..].
      rewrite Hvalid. eexists. split; [done|]. split; [done|].
      cbn [with_output w_out]. rewrite <- app_assoc.
      destruct (Z.eqb_spec (Z.of_nat (length (v :: vs))) 0) as [E|_]; [|done].
      simpl in E. lia.
  - by destruct (Hread cause).
  - rewrite keepRecentN_none by by left.
    eexists. split; [done|]. split; [done|].
    cbn [with_output w_out length Z.of_nat Z.eqb List.filter]. by rewrite <- app_assoc.
Qed.

Lemma C5_cleanup_keeps_all_witness :
  ∃ w', cleanup (test_cleaner 10 false) test_world = (Ok tt, w') ∧
        w_fs w' = w_fs test_world ∧
        w_out w' = (cleanup_header (test_cleaner 10 false)
                      ++ [line_found 9; line_no_cleanup 9])%list.
Proof.
  apply (C5_cleanup_keeps_all (test_cleaner 10 false) test_world).
  - intros cause. vm_compute. discriminate.
  - by_evaluation.
  - vm_compute. discriminate.
Defined.

(** * getAvailableIterations *)

Lemma getAvailableIterations_run this w :
  getAvailableIterations this w =
    match w_fs w !! d_restart_base_path this with
    | None => (Ok [], w)
    | Some (Listable cs) =>
        (Ok (sort_ints (entry_iteration <$> List.filter valid_entry cs)), w)
    | Some (Unlistable cause) => (Ok [], with_output w [line_scan_error cause])
    end.
Proof.
  unfold getAvailableIterations, try_catch. rewrite bind_run, getAllRestartDirs_run.
  destruct (w_fs w !! d_restart_base_path this) as [[cs|cause]|]; try done.
  unfold ret. by rewrite collect_iterations_valid by apply Forall_filter_valid.
Qed.

(** The query reads the filesystem only. *)
Lemma getAvailableIterations_fs this w1 w2 :
  w_fs w1 = w_fs w2 →
  (getAvailableIterations this w1).1 = (getAvailableIterations this w2).1.
Proof.
  intros E. rewrite !getAvailableIterations_run, E.
  by destruct (w_fs w2 !! d_restart_base_path this) as [[cs|cause]|].
Qed.

(** C4: [getAvailableIterations] never throws and never changes the
    filesystem; its result is sorted in ascending order and has no negative
    number; for a directory that can be listed it is the iteration numbers of
    the validly named subdirectories, and where the scan fails the error is
    caught, one diagnostic goes to the error stream and the result is empty. *)
Theorem C4_getAvailableIterations_total (this : RestartCleaner) (w : world) :
  ∃ (iterations : list Z) (w' : world),
    getAvailableIterations this w = (Ok iterations, w') ∧
    w_fs w' = w_fs w ∧
    Sorted Z.le iterations ∧
    Forall (λ i, 0 ≤ i) iterations ∧
    match w_fs w !! d_restart_base_path this with
    | Some (Listable cs) =>
        iterations ≡ₚ entry_iteration <$> List.filter valid_entry cs ∧ w_out w' = w_out w
    | Some (Unlistable cause) =>
        iterations = [] ∧ w_out w' = (w_out w ++ [line_scan_error cause])%list
    | None => iterations = [] ∧ w_out w' = w_out w
    end.
Proof.
  rewrite getAvailableIterations_run.
  destruct (w_fs w !! d_restart_base_path this) as [[cs|cause]|].
  - eexists _, _. split; [done|]. split; [done|].
    split; [apply (Sorted_merge_sort Z.le)|].
    assert (sort_ints (entry_iteration <$> List.filter valid_entry cs)
              ≡ₚ entry_iteration <$> List.filter valid_entry cs) as Hperm
      by apply merge_sort_Permutation.
    split; [|done]. rewrite Hperm.
    apply Forall_fmap, Forall_forall. intros e He. simpl.
    apply valid_entry_iteration.
    by apply list_elem_of_In, filter_In in He as [_ He].
  - eexists _, _. split; [done|]. repeat split; constructor.
  - eexists _, _. split; [done|]. repeat split; constructor.
Qed.

(** * Dry run *)

Lemma delete_loop_dry_frame dirs (i n : nat) w :
  ∃ lines, delete_loop true dirs i n w = (Ok tt, with_output w lines) ∧
           Forall (λ l, l.1 = Stdout) lines.
Proof.
  revert i w. induction n as [|n IH]; intros i w.
  - exists []. by rewrite with_output_nil.
  - cbn [delete_loop]. destruct (dirs !! i) as [d|].
    + rewrite bind_run. unfold delete_one, cout. rewrite print_run.
      destruct (IH (S i) (with_output w [(Stdout,
        "  DRY RUN: Would delete " ++ quoted (path_string d.2))])) as (lines & -> & Hl).
      eexists. rewrite with_output_app. split; [done|].
      apply Forall_app. split; [by repeat constructor|done].
    + exists []. by rewrite with_output_nil.
Qed.

Lemma keepRecentN_dry_frame this w :
  d_dry_run this = true →
  ∃ lines, (keepRecentN this w).2 = with_output w lines ∧
           Forall (λ l, l.1 = Stdout) lines.
Proof.
  intros Hdry. unfold keepRecentN. rewrite bind_run, getAllRestartDirs_run.
  destruct (w_fs w !! d_restart_base_path this) as [[cs|cause]|].
  - destruct (entry_path _ <$> List.filter valid_entry cs) as [|p ps].
    { eexists. split; [done|]. by repeat constructor. }
    rewrite bind_run. unfold cout. rewrite print_run.
    match goal with |- context [if ?c then _ else _] => destruct c end.
    + rewrite print_run, with_output_app. eexists. split; [done|]. by repeat constructor.
    + rewrite bind_run, print_run, with_output_app, Hdry.
      match goal with |- context [delete_loop true ?d ?i ?n ?w0] =>
        destruct (delete_loop_dry_frame d i n w0) as (lines & -> & Hl) end.
      rewrite with_output_app. eexists. split; [done|].
      apply Forall_app. split; [by repeat constructor|done].
  - exists []. by rewrite with_output_nil.
  - eexists. split; [done|]. by repeat constructor.
Qed.

(** C6: with the dry-run flag set, [cleanup] leaves the filesystem as it
    was in every state of the base directory, writes to standard output
    only, [getAvailableIterations] returns afterwards what it returned
    before, and the deletion set is reported by one "DRY RUN" line per
    entry. *)
Theorem C6_dry_run_no_effect (this : RestartCleaner) (w : world) :
  d_dry_run this = true →
  let w' := (cleanup this w).2 in
  w_fs w' = w_fs w ∧
  (∃ lines, w_out w' = (w_out w ++ lines)%list ∧ Forall (λ l, l.1 = Stdout) lines) ∧
  (getAvailableIterations this w').1 = (getAvailableIterations this w).1 ∧
  (∀ cs, w_fs w !! d_restart_base_path this = Some (Listable cs) →
         NoDup (d_name <$> cs) →
         0 < d_keep_restart_count this < Z.of_nat (length (List.filter valid_entry cs)) →
         ∃ del kept,
           del ++ kept ≡ₚ List.filter valid_entry cs ∧
           Z.of_nat (length kept) = d_keep_restart_count this ∧
           StronglySorted (λ a b, entry_iteration a < entry_iteration b) (del ++ kept) ∧
           w_out w' = (w_out w ++ cleanup_header this ++
              [line_found (Z.of_nat (length (List.filter valid_entry cs)));
               line_deleting (Z.of_nat (length del)) (d_keep_restart_count this)]
              ++ (report_line true (d_restart_base_path this) <$> del))%list).
Proof.
  intros Hdry w'.
  assert (∃ lines, w' = with_output w lines ∧ Forall (λ l, l.1 = Stdout) lines)
    as (lines & Hw' & Hlines).
  { subst w'. rewrite cleanup_run.
    destruct (keepRecentN_dry_frame this (with_output w (cleanup_header this)) Hdry)
      as (lines & Hrun & Hl).
    destruct (keepRecentN _ _) as [r w1]. simpl in Hrun. subst w1.
    rewrite with_output_app. eexists. split; [done|].
    apply Forall_app. split; [by repeat constructor|done]. }
  assert (w_fs w' = w_fs w) as Hfs by by rewrite Hw'.
  split; [done|]. split; [exists lines; by rewrite Hw'|].
  split; [by apply getAvailableIterations_fs|].
  intros cs Hcs Hnd Hk.
  destruct (cleanup_many this w cs Hcs Hnd Hk) as (del & kept & Hperm & Hlen & Hss & Hrun).
  exists del, kept. repeat split; try done.
  subst w'. rewrite Hrun, Hdry. done.
Qed.

Lemma C6_dry_run_no_effect_witness :
  w_fs (cleanup (test_cleaner 3 true) test_world).2 = w_fs test_world ∧
  (getAvailableIterations (test_cleaner 3 true)
     (cleanup (test_cleaner 3 true) test_world).2).1
  = (getAvailableIterations (test_cleaner 3 true) test_world).1.
Proof.
  destruct (C6_dry_run_no_effect (test_cleaner 3 true) test_world) as (H1 & _ & H3 & _).
  - reflexivity.
  - split; [exact H1|exact H3].
Defined.

(** * Failing removals *)

(** C7: without the dry-run flag, [cleanup] returns normally whatever
    removals fail; every entry of the deletion set is processed in order,
    an entry whose removal fails is reported on the error stream with its
    path and the cause and stays in place, and every other entry of the
    deletion set is removed and reported as deleted. *)
Theorem C7_deletion_failures_isolated (this : RestartCleaner) (w : world)
    (cs : list dirent) :
  d_dry_run this = false →
  w_fs w !! d_restart_base_path this = Some (Listable cs) →
  NoDup (d_name <$> cs) →
  0 < d_keep_restart_count this < Z.of_nat (length (List.filter valid_entry cs)) →
  let base := d_restart_base_path this in
  ∃ (del kept : list dirent) (w' : world),
    del ++ kept ≡ₚ List.filter valid_entry cs ∧
    Z.of_nat (length kept) = d_keep_restart_count this ∧
    StronglySorted (λ a b, entry_iteration a < entry_iteration b) (del ++ kept) ∧
    cleanup this w = (Ok tt, w') ∧
    w_out w' = (w_out w ++ cleanup_header this ++
       [line_found (Z.of_nat (length (List.filter valid_entry cs)));
        line_deleting (Z.of_nat (length del)) (d_keep_restart_count this)]
       ++ (report_line false base <$> del))%list ∧
    ∀ e, e ∈ del →
      match d_remove_error e with
      | Some cause =>
          report_line false base e =
            (Stderr, "  Error deleting " ++ quoted (path_string (entry_path base e))
                       ++ ": " ++ cause) ∧
          e ∈ children_at (w_fs w') base
      | None =>
          report_line false base e =
            (Stdout, "  Deleted " ++ quoted (path_string (entry_path base e))) ∧
          e ∉ children_at (w_fs w') base
      end.
Proof.
  intros Hdry Hfs Hnd Hk base.
  destruct (cleanup_many this w cs Hfs Hnd Hk) as (del & kept & Hperm & Hlen & Hss & Hrun).
  rewrite Hdry in Hrun. fold base in Hrun.
  exists del, kept. eexists. split; [done|]. split; [done|]. split; [done|].
  split; [exact Hrun|]. cbn [w_out w_fs]. split; [done|].
  intros e He. unfold children_at. rewrite lookup_insert_eq.
  assert (e ∈ cs) as Hin.
  { assert (e ∈ List.filter valid_entry cs) as H.
    { rewrite <- Hperm. apply elem_of_app. by left. }
    apply list_elem_of_In, filter_In in H as [H _]. by apply list_elem_of_In. }
  unfold report_line.
  destruct (d_remove_error e) as [cause|] eqn:Herr.
  - split; [done|]. apply list_elem_of_In, filter_In. split; [by apply list_elem_of_In|].
    unfold survives. rewrite Herr.
    rewrite (bool_decide_eq_true_2 (is_Some _)) by by eexists.
    by rewrite orb_true_r.
  - split; [done|]. intros H. apply list_elem_of_In, filter_In in H as [_ H].
    unfold survives in H. rewrite Herr in H.
    rewrite (bool_decide_eq_true_2 (e ∈ del)) in H by done.
    rewrite (bool_decide_eq_false_2 (is_Some _)) in H; [done|]. by intros [? ?].
Qed.

Lemma C7_deletion_failures_isolated_witness :
  ∃ w', cleanup (test_cleaner 2 false) locked_world = (Ok tt, w').
Proof.
  destruct (C7_deletion_failures_isolated (test_cleaner 2 false) locked_world locked_children)
    as (del & kept & w' & _ & _ & _ & Hrun & _).
  - reflexivity.
  - reflexivity.
  - by_evaluation.
  - split; reflexivity.
  - exists w'. exact Hrun.
Defined.

(** The failing removal in the middle of the deletion set of [locked_world]:
    the entries before and after it are removed, the failure goes to the
    error stream, and [cleanup] returns. *)
Example cleanup_locked_world :
  let r := cleanup (test_cleaner 1 false) locked_world in
  r.1 = Ok tt ∧
  drop 4 (w_out r.2) =
    [ (Stderr, "  Error deleting " ++ quoted "test_restart_cleanup/restart_IB2d/restore.000100"
                 ++ ": Permission denied");
      (Stdout, "  Deleted " ++ quoted "test_restart_cleanup/restart_IB2d/restore.000200");
      (Stdout, "  Deleted " ++ quoted "test_restart_cleanup/restart_IB2d/restore.000300") ] ∧
  d_name <$> children_at (w_fs r.2) test_path
    = ["restore.000100"; "restore.000050"; "restore.000400"].
Proof. repeat split; vm_compute; reflexivity. Qed.

(** * Scan errors *)

(** C3, as stated, fails where the base path was removed after the
    construction: the path cannot be read, and [cleanup] returns normally
    after reporting that no restart directory was found. *)
Lemma C3_counterexample_removed_base :
  unreadable (w_fs empty_world) (d_restart_base_path (test_cleaner 3 false)) ∧
  cleanup (test_cleaner 3 false) empty_world =
    (Ok tt, with_output empty_world
              (cleanup_header (test_cleaner 3 false) ++ [line_none])%list).
Proof.
  split; [|reflexivity]. intros children. vm_compute. discriminate.
Qed.

(** C3, amended: where the base path exists and cannot be listed when
    [cleanup] is called, the scan fails with a scan error carrying the cause,
    and [cleanup] throws it to its caller after its two header lines; where
    the base path no longer exists, the scan finds nothing and [cleanup]
    returns normally after reporting "No restart directories found". *)
Theorem C3_scan_error_propagates (this : RestartCleaner) (w : world) :
  (∀ cause, w_fs w !! d_restart_base_path this = Some (Unlistable cause) →
     cleanup this w =
       (Throw (runtime_error ("RestartCleaner: Error scanning directory: " ++ cause)),
        with_output w (cleanup_header this))) ∧
  (w_fs w !! d_restart_base_path this = None →
     cleanup this w = (Ok tt, with_output w (cleanup_header this ++ [line_none])%list)).
Proof.
  split.
  - intros cause Hfs. rewrite cleanup_run.
    by rewrite (keepRecentN_unlistable this _ cause).
  - intros Hfs. rewrite cleanup_run.
    rewrite keepRecentN_none by by left. by rewrite with_output_app.
Qed.

Lemma C3_scan_error_propagates_witness :
  cleanup (test_cleaner 3 false) unreadable_world =
    (Throw (runtime_error
              ("RestartCleaner: Error scanning directory: " ++ "Permission denied")),
     with_output unreadable_world (cleanup_header (test_cleaner 3 false))) ∧
  cleanup (test_cleaner 3 false) empty_world =
    (Ok tt, with_output empty_world
              (cleanup_header (test_cleaner 3 false) ++ [line_none])%list).
Proof.
  split.
  - apply (proj1 (C3_scan_error_propagates (test_cleaner 3 false) unreadable_world)
             {| f_stage := AtOpen; f_cause := "Permission denied" |}).
    reflexivity.
  - apply (proj2 (C3_scan_error_propagates (test_cleaner 3 false) empty_world)).
    reflexivity.
Defined.

(** * Construction *)

Lemma bind_throw {A B} e (k : A → M B) w : bind (throw e) k w = (Throw e, w).
Proof. reflexivity. Qed.

Lemma RestartCleaner_new_run restart_base_path keep_restart_count strategy dry_run w :
  RestartCleaner_new restart_base_path keep_restart_count strategy dry_run w =
    if negb (String.eqb strategy "KEEP_RECENT_N") then
      (Throw (invalid_argument ("RestartCleaner: Unknown strategy: " ++ strategy)), w)
    else if keep_restart_count <=? 0 then
      (Throw (invalid_argument "RestartCleaner: keep_restart_count must be positive"), w)
    else
      match w_fs w !! restart_base_path with
      | None =>
          (Throw (invalid_argument
                    ("RestartCleaner: restart_base_path does not exist: "
                       ++ restart_base_path)), w)
      | Some (Unlistable {| f_stage := AtStatus; f_cause := cause |}) =>
          (Throw (filesystem_error cause), w)
      | Some _ =>
          (Ok {| d_restart_base_path := restart_base_path;
                 d_strategy := KEEP_RECENT_N;
                 d_keep_restart_count := keep_restart_count;
                 d_dry_run := dry_run |}, w)
      end.
Proof.
  unfold RestartCleaner_new, parseStrategy, bind, fs_exists, ret, throw.
  destruct (String.eqb strategy "KEEP_RECENT_N"); cbv beta iota; cbn [negb]; [|done].
  destruct (keep_restart_count <=? 0); cbv beta iota; [done|].
  by destruct (w_fs w !! restart_base_path) as [[cs|[[] cause]]|].
Qed.

Lemma run_calls_object calls this w : (run_calls calls this w).1 = this.
Proof.
  revert this w. induction calls as [|c calls IH]; intros this w; [done|].
  cbn [run_calls]. destruct c; cbn [run_call]; apply IH.
Qed.

(** C8, as stated, fails where the status of the base path cannot be read:
    the keep count is positive, the strategy is the recognized one, there is
    something at the base path, and the construction throws all the same,
    with the [filesystem_error] of [fs::exists]. *)
Lemma C8_counterexample_status_unreadable :
  0 < 5 ∧
  is_Some (w_fs unreachable_world !! test_path) ∧
  RestartCleaner_new test_path 5 "KEEP_RECENT_N" false unreachable_world
    = (Throw (filesystem_error "Permission denied"), unreachable_world).
Proof. split; [lia|]. split; [by eexists|reflexivity]. Qed.

(** C8, amended: the construction of a [RestartCleaner] throws exactly when
    the keep count is not positive, or there is nothing at the base path, or
    the strategy is not "KEEP_RECENT_N", or the status of the base path
    cannot be read.  In the last case, with the other arguments in order, the
    exception is the [filesystem_error] of [fs::exists]; in every other
    failing case it is an [invalid_argument].  Neither outcome touches the
    world.  A construction that does not throw yields the object holding the
    four values it was given, and after any sequence of calls of its member
    functions the object still holds them. *)
Theorem C8_construction_outcomes (restart_base_path : string) (keep_restart_count : Z)
    (strategy : string) (dry_run : bool) (w : world) :
  let r := RestartCleaner_new restart_base_path keep_restart_count strategy dry_run w in
  let object := {| d_restart_base_path := restart_base_path;
                   d_strategy := KEEP_RECENT_N;
                   d_keep_restart_count := keep_restart_count;
                   d_dry_run := dry_run |} in
  ((∃ e, r = (Throw e, w)) ↔
     keep_restart_count ≤ 0 ∨ w_fs w !! restart_base_path = None
     ∨ strategy ≠ "KEEP_RECENT_N" ∨ status_unreadable (w_fs w) restart_base_path) ∧
  (∀ e, r = (Throw e, w) →
     ((∃ msg, e = invalid_argument msg) ∧
      (keep_restart_count ≤ 0 ∨ w_fs w !! restart_base_path = None
       ∨ strategy ≠ "KEEP_RECENT_N"))
     ∨ ((∃ cause, e = filesystem_error cause) ∧
        strategy = "KEEP_RECENT_N" ∧ 0 < keep_restart_count ∧
        status_unreadable (w_fs w) restart_base_path)) ∧
  ((∃ e, r = (Throw e, w)) ∨ r = (Ok object, w)) ∧
  (∀ calls w1, (run_calls calls object w1).1 = object).
Proof.
  intros r object. subst r. rewrite RestartCleaner_new_run.
  split; [|split; [|split; [|intros; apply run_calls_object]]].
  - destruct (String.eqb_spec strategy "KEEP_RECENT_N") as [Hs|Hs]; cbn [negb].
    2:{ split; [auto|]. intros _. by eexists. }
    destruct (Z.leb_spec keep_restart_count 0) as [Hk|Hk].
    { split; [auto|]. intros _. by eexists. }
    unfold status_unreadable.
    destruct (w_fs w !! restart_base_path) as [[cs|[[] cause]]|] eqn:Hfs.
    + split; [by intros [e He]|]. intros [?|[?|[?|[c Hc]]]]; [lia|done|done|done].
    + split; [|intros _; by eexists]. intros _. do 3 right. by exists cause.
    + split; [by intros [e He]|]. intros [?|[?|[?|[c Hc]]]]; [lia|done|done|done].
    + split; [by intros [e He]|]. intros [?|[?|[?|[c Hc]]]]; [lia|done|done|done].
    + split; [auto|]. intros _. by eexists.
  - intros e.
    destruct (String.eqb_spec strategy "KEEP_RECENT_N") as [Hs|Hs]; cbn [negb].
    2:{ intros [= <-]. left. split; [by eexists|tauto]. }
    destruct (Z.leb_spec keep_restart_count 0) as [Hk|Hk].
    { intros [= <-]. left. split; [by eexists|tauto]. }
    unfold status_unreadable.
    destruct (w_fs w !! restart_base_path) as [[cs|[[] cause]]|] eqn:Hfs; try done.
    + intros [= <-]. right. split; [by eexists|].
      split; [done|]. split; [done|]. by exists cause.
    + intros [= <-]. left. split; [by eexists|tauto].
  - destruct (String.eqb strategy "KEEP_RECENT_N"); cbn [negb]; [|left; by eexists].
    destruct (keep_restart_count <=? 0); [left; by eexists|].
    destruct (w_fs w !! restart_base_path) as [[cs|[[] cause]]|];
      (by right) || (left; by eexists).
Qed.

Lemma C8_construction_outcomes_witness :
  (∃ e, RestartCleaner_new test_path (-1) "KEEP_RECENT_N" false test_world
        = (Throw e, test_world)) ∧
  (∃ e, RestartCleaner_new "/non/existent/directory" 5 "KEEP_RECENT_N" false test_world
        = (Throw e, test_world)) ∧
  (∃ e, RestartCleaner_new test_path 5 "SMART_RETENTION" false test_world
        = (Throw e, test_world)) ∧
  (∃ e, RestartCleaner_new test_path 5 "KEEP_RECENT_N" false unreachable_world
        = (Throw e, unreachable_world)) ∧
  ((∃ e, RestartCleaner_new test_path 5 "KEEP_RECENT_N" true test_world
         = (Throw e, test_world)) ∨
   RestartCleaner_new test_path 5 "KEEP_RECENT_N" true test_world
     = (Ok (test_cleaner 5 true), test_world)) ∧
  RestartCleaner_new test_path 5 "KEEP_RECENT_N" true test_world
    = (Ok (test_cleaner 5 true), test_world).
Proof.
  split; [|split; [|split; [|split; [|split]]]].
  - apply (proj1 (C8_construction_outcomes test_path (-1) "KEEP_RECENT_N" false test_world)).
    left. lia.
  - apply (proj1 (C8_construction_outcomes "/non/existent/directory" 5 "KEEP_RECENT_N"
                    false test_world)).
    right; left. reflexivity.
  - apply (proj1 (C8_construction_outcomes test_path 5 "SMART_RETENTION" false test_world)).
    right; right; left. discriminate.
  - apply (proj1 (C8_construction_outcomes test_path 5 "KEEP_RECENT_N" false
                    unreachable_world)).
    right; right; right. exists "Permission denied". reflexivity.
  - apply (proj1 (proj2 (proj2
      (C8_construction_outcomes test_path 5 "KEEP_RECENT_N" true test_world)))).
  - reflexivity.
Defined.

(** * The command line *)

Lemma stoi_throws s e :
  stoi s = Throw e → e = invalid_argument "stoi" ∨ e = out_of_range "stoi".
Proof.
  unfold stoi.
  destruct (match skip_space s with
            | String c r => _
            | EmptyString => _
            end) as [neg s2].
  destruct s2 as [|c s2]; [intros [= <-]; by left|].
  destruct (isdigit c); [|intros [= <-]; by left].
  cbv zeta. destruct (_ && _); [done|intros [= <-]; by right].
Qed.

(** A text that does not begin with white space, a sign or a digit is not
    converted. *)
Lemma stoi_no_number s :
  match s with
  | EmptyString => True
  | String c _ =>
      isspace c = false ∧ isdigit c = false ∧ c ≠ "-"%char ∧ c ≠ "+"%char
  end →
  stoi s = Throw (invalid_argument "stoi").
Proof.
  destruct s as [|c r]; [done|]. intros (Hsp & Hd & Hm & Hp).
  unfold stoi. cbn [skip_space]. rewrite Hsp.
  apply Ascii.eqb_neq in Hm, Hp. rewrite Hm, Hp, Hd. done.
Qed.

Lemma show_usage_run name w :
  ∃ lines, show_usage name w = (Ok tt, with_output w lines) ∧ lines ≠ [].
Proof.
  unfold show_usage, cout. rewrite bind_run, print_run.
  repeat (rewrite bind_run, print_run, with_output_app).
  rewrite print_run, with_output_app. eexists. split; [done|]. done.
Qed.

Lemma RestartCleaner_new_cases restart_base_path keep_restart_count strategy dry_run w :
  (∃ e, RestartCleaner_new restart_base_path keep_restart_count strategy dry_run w
        = (Throw e, w))
  ∨ (RestartCleaner_new restart_base_path keep_restart_count strategy dry_run w
       = (Ok {| d_restart_base_path := restart_base_path;
                d_strategy := KEEP_RECENT_N;
                d_keep_restart_count := keep_restart_count;
                d_dry_run := dry_run |}, w)
     ∧ is_Some (w_fs w !! restart_base_path)).
Proof.
  rewrite RestartCleaner_new_run.
  destruct (String.eqb strategy "KEEP_RECENT_N"); cbn [negb]; [|left; by eexists].
  destruct (keep_restart_count <=? 0); [left; by eexists|].
  destruct (w_fs w !! restart_base_path) as [[cs|[[] cause]]|];
    (right; split; [done|by eexists]) || (left; by eexists).
Qed.

Lemma cleaner_session_ok restart_dir keep dry w code w1 :
  cleaner_session restart_dir keep dry w = (Ok code, w1) →
  code = 0 ∧
  ∃ cleaner wa wb remaining,
    cleaner = {| d_restart_base_path := restart_dir; d_strategy := KEEP_RECENT_N;
                 d_keep_restart_count := keep; d_dry_run := dry |} ∧
    is_Some (w_fs w !! restart_dir) ∧
    cleanup cleaner w = (Ok tt, wa) ∧
    getAvailableIterations cleaner wa = (Ok remaining, wb) ∧
    w1 = with_output wb [final_line remaining].
Proof.
  unfold cleaner_session. rewrite bind_run.
  destruct (RestartCleaner_new_cases restart_dir keep "KEEP_RECENT_N" dry w)
    as [[e ->]|[-> Hsome]]; [done|].
  rewrite bind_run.
  set (cleaner := {| d_restart_base_path := restart_dir; d_strategy := KEEP_RECENT_N;
                     d_keep_restart_count := keep; d_dry_run := dry |}).
  destruct (cleanup cleaner w) as [[[]|e] wa] eqn:Hclean; [|done].
  rewrite bind_run.
  destruct (getAvailableIterations cleaner wa) as [[remaining|e] wb] eqn:Hget; [|done].
  rewrite bind_run. unfold cout. rewrite print_run. intros [= <- <-].
  split; [done|]. exists cleaner, wa, wb, remaining. repeat split; done.
Qed.

Lemma run_cleaner_run restart_dir keep dry w :
  run_cleaner restart_dir keep dry w =
    match cleaner_session restart_dir keep dry w with
    | (Ok code, w1) => (Ok code, w1)
    | (Throw e, w1) => (Ok 1, with_output w1 [error_line e])
    end.
Proof.
  unfold run_cleaner, try_catch.
  destruct (cleaner_session restart_dir keep dry w) as [[code|e] w1]; [done|].
  by run_prints.
Qed.

Lemma main_parse_and_run_run argv dry w :
  (((∃ e, stoi (arg argv 2) = Throw e) ∨ (∃ n, stoi (arg argv 2) = Ok n ∧ n ≤ 0)) ∧
   ∃ lines, main_parse_and_run argv dry w = (Ok 1, with_output w lines) ∧ lines ≠ [])
  ∨ (∃ keep, stoi (arg argv 2) = Ok keep ∧ 0 < keep ∧
       main_parse_and_run argv dry w = run_cleaner (arg argv 3) keep dry w).
Proof.
  unfold main_parse_and_run.
  destruct (stoi (arg argv 2)) as [n|e] eqn:Hstoi.
  - destruct (Z.leb_spec n 0) as [Hn|Hn].
    + left. split; [right; by exists n|].
      run_prints. by eexists.
    + right. by exists n.
  - left. split; [left; by exists e|].
    destruct (stoi_throws _ _ Hstoi) as [-> | ->];
      run_prints; by eexists.
Qed.

Lemma main_run argv w :
  (usage_error argv ∧
   ∃ lines, main argv w = (Ok 1, with_output w lines) ∧ lines ≠ [])
  ∨ (¬ usage_error argv ∧
     ∃ keep, stoi (arg argv 2) = Ok keep ∧ 0 < keep ∧
       main argv w = run_cleaner (arg argv 3) keep (Z.of_nat (length argv) =? 5) w).
Proof.
  unfold main, usage_error. set (argc := Z.of_nat (length argv)).
  destruct ((argc <? 4) || (argc >? 5)) eqn:Hc.
  { left. split.
    - apply orb_true_iff in Hc as [H%Z.ltb_lt|H%Z.gtb_gt]; [by left|right; by left].
    - rewrite bind_run. destruct (show_usage_run (arg argv 0) w) as (lines & -> & Hl).
      by exists lines. }
  apply orb_false_iff in Hc as [H4%Z.ltb_ge H5].
  assert (argc ≤ 5) as H5'.
  { destruct (Z.gtb_spec argc 5); [done|lia]. }
  clear H5.
  destruct (String.eqb_spec (arg argv 1) "--recent") as [Hopt|Hopt]; cbn [negb].
  2:{ left. split; [tauto|].
      unfold cerr. rewrite bind_run, print_run, bind_run.
      destruct (show_usage_run (arg argv 0)
                  (with_output w [(Stderr, "Error: Currently only --recent option is supported.")]))
        as (lines & -> & Hl).
      rewrite with_output_app. by eexists. }
  destruct (Z.eqb_spec argc 5) as [Hargc|Hargc].
  - destruct (String.eqb_spec (arg argv 4) "--dry-run") as [Hflag|Hflag].
    + destruct (main_parse_and_run_run argv true w)
        as [[Hbad Hrun]|(keep & Hstoi & Hpos & Hrun)].
      * left. split; [tauto|done].
      * right. split; [|by exists keep].
        intros [?|[?|[?|[[_ ?]|[[e He]|(n & Hn & ?)]]]]]; try lia; try done; try congruence.
        rewrite Hstoi in Hn. injection Hn as ->. lia.
    + left. split; [tauto|].
      unfold cerr. rewrite bind_run, print_run, bind_run.
      match goal with |- context [show_usage ?n ?w0] =>
        destruct (show_usage_run n w0) as (lines & -> & Hl) end.
      rewrite with_output_app. by eexists.
  - destruct (main_parse_and_run_run argv false w)
      as [[Hbad Hrun]|(keep & Hstoi & Hpos & Hrun)].
    + left. split; [tauto|done].
    + right. split; [|by exists keep].
      intros [?|[?|[?|[[? _]|[[e He]|(n & Hn & ?)]]]]]; try lia; try done; try congruence.
      rewrite Hstoi in Hn. injection Hn as ->. lia.
Qed.

(** What [main] does in every case: it never lets an exception escape and
    exits with 0 or 1; it stops with 1 after a message on a usage error;
    otherwise the core runs, an exception of the core is written to the
    error stream after "Error: " and gives 1, and a run without exception
    ends with the line of the final count and gives 0. *)
Lemma main_outcomes (argv : list string) (w : world) :
  (∃ code w', main argv w = (Ok code, w') ∧ (code = 0 ∨ code = 1)) ∧
  (usage_error argv →
     ∃ lines, main argv w = (Ok 1, with_output w lines) ∧ lines ≠ []) ∧
  (¬ usage_error argv →
     ∃ keep_count, stoi (arg argv 2) = Ok keep_count ∧ 0 < keep_count ∧
       match cleaner_session (arg argv 3) keep_count (Z.of_nat (length argv) =? 5) w with
       | (Throw e, w1) => main argv w = (Ok 1, with_output w1 [error_line e])
       | (Ok _, w1) =>
           main argv w = (Ok 0, w1) ∧
           let cleaner :=
             {| d_restart_base_path := arg argv 3; d_strategy := KEEP_RECENT_N;
                d_keep_restart_count := keep_count;
                d_dry_run := Z.of_nat (length argv) =? 5 |} in
           ∃ wa wb remaining,
             cleanup cleaner w = (Ok tt, wa) ∧
             getAvailableIterations cleaner wa = (Ok remaining, wb) ∧
             w1 = with_output wb [final_line remaining]
       end) ∧
  (match arg argv 2 with
   | EmptyString => True
   | String c _ => isspace c = false ∧ isdigit c = false ∧ c ≠ "-"%char ∧ c ≠ "+"%char
   end → usage_error argv).
Proof.
  assert (¬ usage_error argv →
     ∃ keep_count, stoi (arg argv 2) = Ok keep_count ∧ 0 < keep_count ∧
       match cleaner_session (arg argv 3) keep_count (Z.of_nat (length argv) =? 5) w with
       | (Throw e, w1) => main argv w = (Ok 1, with_output w1 [error_line e])
       | (Ok _, w1) =>
           main argv w = (Ok 0, w1) ∧
           let cleaner :=
             {| d_restart_base_path := arg argv 3; d_strategy := KEEP_RECENT_N;
                d_keep_restart_count := keep_count;
                d_dry_run := Z.of_nat (length argv) =? 5 |} in
           ∃ wa wb remaining,
             cleanup cleaner w = (Ok tt, wa) ∧
             getAvailableIterations cleaner wa = (Ok remaining, wb) ∧
             w1 = with_output wb [final_line remaining]
       end) as Hcore.
  { intros Hno. destruct (main_run argv w) as [[Hu _]|(_ & keep & Hstoi & Hpos & Hrun)];
      [done|].
    exists keep. split; [done|]. split; [done|].
    rewrite Hrun, run_cleaner_run.
    destruct (cleaner_session _ _ _ w) as [[code|e] w1] eqn:Hsess; [|done].
    destruct (cleaner_session_ok _ _ _ _ _ _ Hsess)
      as (-> & cleaner & wa & wb & remaining & -> & _ & Hc & Hg & Hw).
    split; [done|]. by exists wa, wb, remaining. }
  split; [|split; [|split; [exact Hcore|]]].
  - destruct (main_run argv w) as [(_ & lines & -> & _)|[Hno _]].
    + eexists _, _. split; [done|]. by right.
    + destruct (Hcore Hno) as (keep & _ & _ & Hm).
      destruct (cleaner_session _ _ _ w) as [[code|e] w1].
      * destruct Hm as [-> _]. eexists _, _. split; [done|]. by left.
      * rewrite Hm. eexists _, _. split; [done|]. by right.
  - intros Hu. destruct (main_run argv w) as [[_ Hrun]|[Hno _]]; done.
  - intros Hshape. unfold usage_error. do 4 right. left.
    eexists. by apply stoi_no_number.
Qed.

(** C9: the keep count "3abc" is not the text of a number, and [main] does
    not reject it: [std::stoi] converts the leading digit, nothing looks at
    the text that follows, the cleanup runs with keep count 3 and leaves
    what the keep count "3" leaves, nothing goes to the error stream and the
    exit code is 0, where the claim has exit code 1 after a message. *)
Theorem C9_trailing_text_accepted :
  ¬ numeric_text "3abc" ∧
  stoi "3abc" = Ok 3 ∧
  (main ["restart_cleaner"; "--recent"; "3abc"; test_path] test_world).1 = Ok 0 ∧
  Forall (λ l, l.1 = Stdout)
    (w_out (main ["restart_cleaner"; "--recent"; "3abc"; test_path] test_world).2) ∧
  d_name <$> children_at
    (w_fs (main ["restart_cleaner"; "--recent"; "3abc"; test_path] test_world).2) test_path
  = d_name <$> children_at
      (w_fs (main ["restart_cleaner"; "--recent"; "3"; test_path] test_world).2) test_path.
Proof.
  split; [|split; [reflexivity|split; [vm_compute; reflexivity|split]]].
  - intros (body & [<-|[E|E]] & _ & Hd); [|discriminate E..].
    vm_compute in Hd. discriminate Hd.
  - vm_compute. repeat constructor.
  - vm_compute. reflexivity.
Qed.

(** * Whole runs of cleanup *)

Lemma filter_bool_Permutation {A} (p : A → bool) (l1 l2 : list A) :
  l1 ≡ₚ l2 → List.filter p l1 ≡ₚ List.filter p l2.
Proof.
  induction 1 as [|x l1 l2 _ IH|x y l|l1 l2 l3 _ IH1 _ IH2]; cbn [List.filter].
  - done.
  - destruct (p x); by rewrite IH.
  - destruct (p x), (p y); try done. apply Permutation_swap.
  - by rewrite IH1.
Qed.

Lemma sorted_entries_unique (l1 l2 : list dirent) :
  StronglySorted (λ a b, entry_iteration a < entry_iteration b) l1 →
  StronglySorted (λ a b, entry_iteration a < entry_iteration b) l2 →
  l1 ≡ₚ l2 → l1 = l2.
Proof.
  apply StronglySorted_unique_strong. intros x1 x2 _ _ H1 H2. lia.
Qed.

(** A split of the sorted entries is fixed by the length of its second part. *)
Lemma sorted_split_unique (d1 k1 d2 k2 : list dirent) :
  StronglySorted (λ a b, entry_iteration a < entry_iteration b) (d1 ++ k1) →
  StronglySorted (λ a b, entry_iteration a < entry_iteration b) (d2 ++ k2) →
  d1 ++ k1 ≡ₚ d2 ++ k2 → length k1 = length k2 → d1 = d2 ∧ k1 = k2.
Proof.
  intros H1 H2 Hp Hlen.
  pose proof (sorted_entries_unique _ _ H1 H2 Hp) as E.
  apply app_inj_2 in E; [done|done].
Qed.

Lemma survives_nil dry (cs : list dirent) : List.filter (survives dry []) cs = cs.
Proof.
  apply filter_all_true. intros x _. unfold survives.
  rewrite (bool_decide_eq_false_2 (x ∈ [])) by apply not_elem_of_nil.
  by rewrite orb_true_r.
Qed.

Lemma survives_dry (del cs : list dirent) : List.filter (survives true del) cs = cs.
Proof. by apply filter_all_true. Qed.

(** One description for every run of [cleanup] on a directory that can be
    listed. *)
Lemma cleanup_listable this w cs :
  w_fs w !! d_restart_base_path this = Some (Listable cs) →
  NoDup (d_name <$> cs) →
  0 < d_keep_restart_count this →
  ∃ del kept : list dirent,
    del ++ kept ≡ₚ List.filter valid_entry cs ∧
    StronglySorted (λ a b, entry_iteration a < entry_iteration b) (del ++ kept) ∧
    length kept = (length (List.filter valid_entry cs) `min`
                     Z.to_nat (d_keep_restart_count this))%nat ∧
    cleanup this w =
      (Ok tt,
       {| w_fs := <[d_restart_base_path this :=
                      Listable (List.filter (survives (d_dry_run this) del) cs)]> (w_fs w);
          w_out := (w_out w ++ cleanup_header this ++
             summary_lines (Z.of_nat (length (List.filter valid_entry cs)))
                           (d_keep_restart_count this)
             ++ (report_line (d_dry_run this) (d_restart_base_path this) <$> del))%list |}).
Proof.
  intros Hfs Hnd Hpos.
  set (valid := List.filter valid_entry cs).
  destruct (Z.lt_ge_cases (d_keep_restart_count this) (Z.of_nat (length valid))) as [Hlt|Hge].
  - destruct (cleanup_many this w cs Hfs Hnd (conj Hpos Hlt))
      as (del & kept & Hperm & Hlen & Hss & Hrun).
    exists del, kept. split; [done|]. split; [done|]. split; [fold valid; lia|].
    rewrite Hrun. unfold summary_lines. fold valid.
    destruct (Z.eqb_spec (Z.of_nat (length valid)) 0); [lia|].
    destruct (Z.leb_spec (Z.of_nat (length valid)) (d_keep_restart_count this)); [lia|].
    assert (Z.of_nat (length del) = Z.of_nat (length valid) - d_keep_restart_count this)
      as ->; [|done].
    assert (length (del ++ kept) = length valid) as E by by rewrite Hperm.
    rewrite length_app in E. lia.
  - assert (NoDup (entry_iteration <$> valid)) as Hiter.
    { apply valid_entries_NoDup_iterations; [apply Forall_filter_valid|].
      by apply valid_entries_NoDup_names. }
    destruct (sort_pairs_entries (d_restart_base_path this) valid Hiter)
      as (ordered & _ & Hperm & Hss).
    exists [], ordered. cbn [app]. split; [done|]. split; [done|].
    split; [rewrite Hperm; lia|].
    rewrite survives_nil, insert_id by done.
    rewrite cleanup_run. unfold summary_lines. subst valid.
    destruct (List.filter valid_entry cs) as [|v vs] eqn:Hvalid.
    + rewrite keepRecentN_none by (right; exists cs; done).
      rewrite with_output_app. cbn [length Z.of_nat Z.eqb]. by rewrite app_nil_r.
    + rewrite (keepRecentN_few this _ cs); try done; [|by rewrite Hvalid..].
      rewrite with_output_app, Hvalid.
      destruct (Z.eqb_spec (Z.of_nat (length (v :: vs))) 0) as [E|_]; [simpl in E; lia|].
      destruct (Z.leb_spec (Z.of_nat (length (v :: vs))) (d_keep_restart_count this)); [|lia].
      by rewrite app_nil_r.
Qed.

(** * Counting newer entries *)

Lemma filter_length_le {A} (p : A → bool) (l : list A) :
  (length (List.filter p l) ≤ length l)%nat.
Proof.
  induction l as [|x l IH]; [done|]. cbn [List.filter].
  destruct (p x); simpl; lia.
Qed.

Lemma filter_length_lt {A} (p : A → bool) (l : list A) x :
  x ∈ l → p x = false → (length (List.filter p l) < length l)%nat.
Proof.
  induction l as [|y l IH]; [by intros ?%elem_of_nil|].
  intros [->|Hin]%elem_of_cons Hx; cbn [List.filter].
  - rewrite Hx. pose proof (filter_length_le p l). simpl. lia.
  - specialize (IH Hin Hx). destruct (p y); simpl; lia.
Qed.

Lemma filter_none {A} (p : A → bool) (l : list A) :
  (∀ x, x ∈ l → p x = false) → List.filter p l = [].
Proof.
  induction l as [|y l IH]; [done|]. intros H. cbn [List.filter].
  rewrite (H y) by by left. apply IH. intros x Hx. apply H. by right.
Qed.

Lemma filter_comm {A} (p q : A → bool) (l : list A) :
  List.filter p (List.filter q l) = List.filter q (List.filter p l).
Proof.
  rewrite !filter_filter_bool. apply filter_ext. intros x. apply andb_comm.
Qed.

Lemma filter_sublist {A} (p : A → bool) (l : list A) : List.filter p l `sublist_of` l.
Proof.
  induction l as [|x l IH]; [done|]. cbn [List.filter].
  destruct (p x); by constructor.
Qed.

Lemma newer_count_Permutation (l1 l2 : list dirent) e :
  l1 ≡ₚ l2 → newer_count l1 e = newer_count l2 e.
Proof.
  intros Hp. unfold newer_count. by rewrite (filter_bool_Permutation _ _ _ Hp).
Qed.

(** In a split of the sorted entries whose second part has [k] entries (or
    all of them), the first part holds the entries with at least [k] newer
    ones. *)
Lemma deletion_set_newer (del kept valid : list dirent) (k : nat) e :
  del ++ kept ≡ₚ valid →
  StronglySorted (λ a b, entry_iteration a < entry_iteration b) (del ++ kept) →
  length kept = (length valid `min` k)%nat →
  e ∈ valid →
  e ∈ del ↔ (k ≤ newer_count valid e)%nat.
Proof.
  intros Hperm Hss Hlen He.
  rewrite <- (newer_count_Permutation _ _ e Hperm).
  unfold newer_count. rewrite List.filter_app, length_app.
  assert (length (del ++ kept) = length valid) as Hn by by rewrite Hperm.
  rewrite length_app in Hn.
  rewrite <- Hperm in He. apply elem_of_app in He as [He|He].
  - split; [intros _|done].
    assert (length kept = k) as Hk.
    { destruct del; [by apply elem_of_nil in He|]. simpl in Hn. lia. }
    rewrite (filter_all_true _ kept); [lia|].
    intros x Hx%list_elem_of_In. apply Z.ltb_lt.
    by apply (StronglySorted_app_lt del kept).
  - assert (e ∉ del) as Hno.
    { intros Hd. pose proof (StronglySorted_app_lt del kept e e Hss Hd He). lia. }
    split; [done|]. intros Hk. exfalso.
    rewrite (filter_none _ del) in Hk.
    2:{ intros x Hx. apply Z.ltb_ge.
        pose proof (StronglySorted_app_lt del kept x e Hss Hx He). lia. }
    assert (length (List.filter (λ x, (entry_iteration e <? entry_iteration x)%Z) kept)
            < length kept)%nat as Hlt.
    { apply (filter_length_lt _ kept e He). apply Z.ltb_ge. lia. }
    simpl in Hk. lia.
Qed.

(** * Any state of the directory *)

Lemma delete_one_ok dry p w :
  ∃ w', delete_one dry p w = (Ok tt, w') ∧
        ∃ lines, w_out w' = (w_out w ++ lines)%list.
Proof.
  unfold delete_one. destruct dry.
  - unfold cout. rewrite print_run. eexists. split; [done|]. by eexists.
  - unfold try_catch. rewrite bind_run.
    destruct (remove_all p w) as [[[]|e] w1] eqn:Hrm.
    + unfold cout. rewrite print_run. eexists. split; [done|].
      assert (w_out w1 = w_out w) as Hout.
      { unfold remove_all in Hrm.
        destruct (w_fs w !! parent p) as [[cs|c]|]; [|done|by injection Hrm as <-].
        destruct (find _ cs) as [x|]; [|by injection Hrm as <-].
        destruct (d_remove_error x); [done|]. by injection Hrm as <-. }
      cbn. rewrite Hout. by eexists.
    + unfold cerr. rewrite print_run. eexists. split; [done|].
      assert (w1 = w) as ->.
      { unfold remove_all in Hrm.
        destruct (w_fs w !! parent p) as [[cs|c]|]; [|by injection Hrm|done].
        destruct (find _ cs) as [x|]; [|done].
        destruct (d_remove_error x); [by injection Hrm|done]. }
      by eexists.
Qed.

Lemma delete_loop_ok dry dirs (i n : nat) w :
  ∃ w', delete_loop dry dirs i n w = (Ok tt, w') ∧
        ∃ lines, w_out w' = (w_out w ++ lines)%list.
Proof.
  revert i w. induction n as [|n IH]; intros i w.
  - exists w. split; [done|]. exists []. by rewrite app_nil_r.
  - cbn [delete_loop]. destruct (dirs !! i) as [d|].
    + rewrite bind_run.
      destruct (delete_one_ok dry d.2 w) as (w1 & -> & l1 & H1).
      destruct (IH (S i) w1) as (w2 & -> & l2 & H2).
      exists w2. split; [done|]. exists (l1 ++ l2)%list. by rewrite H2, H1, app_assoc.
    + exists w. split; [done|]. exists []. by rewrite app_nil_r.
Qed.

(** [cleanup] throws for one reason only. *)
Lemma cleanup_outcome this w :
  match w_fs w !! d_restart_base_path this with
  | Some (Unlistable cause) =>
      cleanup this w =
        (Throw (runtime_error ("RestartCleaner: Error scanning directory: " ++ cause)),
         with_output w (cleanup_header this))
  | _ => ∃ w', cleanup this w = (Ok tt, w') ∧ ∃ lines, w_out w' = (w_out w ++ lines)%list
  end.
Proof.
  rewrite cleanup_run.
  destruct (w_fs w !! d_restart_base_path this) as [[cs|cause]|] eqn:Hfs.
  - unfold keepRecentN. rewrite bind_run, getAllRestartDirs_run.
    cbn [with_output w_fs]. rewrite Hfs.
    destruct (entry_path _ <$> List.filter valid_entry cs) as [|p ps].
    { unfold cout. rewrite print_run, with_output_app. eexists. split; [done|]. by eexists. }
    rewrite bind_run. unfold cout. rewrite print_run, with_output_app.
    match goal with |- context [if ?c then _ else _] => destruct c end.
    + rewrite print_run, with_output_app. eexists. split; [done|]. by eexists.
    + rewrite bind_run, print_run, with_output_app.
      match goal with |- context [delete_loop ?dr ?d ?i ?n ?w0] =>
        destruct (delete_loop_ok dr d i n w0) as (w' & -> & lines & Hl) end.
      exists w'. split; [done|]. cbn in Hl. rewrite Hl, <- app_assoc. by eexists.
  - by rewrite (keepRecentN_unlistable this _ cause).
  - rewrite keepRecentN_none by by left. rewrite with_output_app.
    eexists. split; [done|]. by eexists.
Qed.

(** * Further properties of the scan and of the query *)

(** X1: [getAllRestartDirs] changes neither the filesystem nor the output.
    When it returns, the scan has succeeded or there is nothing at the path
    (then the result is empty); the result lists, in the order of the
    directory, the names of the children that are directories with a valid
    name, each path under the scanned directory and each with an iteration
    number between 0 and 999999, so that the second parse in [keepRecentN]
    and in [getAvailableIterations] drops none of them.  When it throws, the
    scan has failed at one of its stages (the status of the path, the
    opening of the directory, an entry), and whatever the stage the
    exception is a [runtime_error] whose message is the fixed prefix and the
    cause: none of the library's exceptions leaves the function as it is. *)
Theorem getAllRestartDirs_contract (restart_dir : string) (w : world) :
  (getAllRestartDirs restart_dir w).2 = w ∧
  match (getAllRestartDirs restart_dir w).1 with
  | Ok dirs =>
      (∀ cause, w_fs w !! restart_dir ≠ Some (Unlistable cause)) ∧
      filename <$> dirs
        = d_name <$> List.filter valid_entry (children_at (w_fs w) restart_dir) ∧
      Forall (λ p, parent p = restart_dir ∧ 0 ≤ parseIterationNum (filename p) ≤ 999999)
             dirs ∧
      collect_dirs_with_iter dirs = (λ p, (parseIterationNum (filename p), p)) <$> dirs ∧
      collect_iterations dirs = (λ p, parseIterationNum (filename p)) <$> dirs
  | Throw e =>
      ∃ cause, w_fs w !! restart_dir = Some (Unlistable cause) ∧
               e = runtime_error ("RestartCleaner: Error scanning directory: " ++ cause)
  end.
Proof.
  rewrite getAllRestartDirs_run. unfold children_at.
  destruct (w_fs w !! restart_dir) as [[cs|cause]|]; cbn [fst snd].
  - split; [done|]. split; [done|].
    pose proof (Forall_filter_valid cs) as Hvalid.
    split; [|split; [|split]].
    + by rewrite <- list_fmap_compose.
    + apply Forall_fmap. eapply Forall_impl; [exact Hvalid|]. intros e He. cbn.
      split; [done|]. apply valid_entry_iteration in He. unfold entry_iteration in He.
      destruct (parseIterationNum_range (d_name e)); lia.
    + rewrite collect_dirs_with_iter_valid by done. by rewrite <- list_fmap_compose.
    + rewrite collect_iterations_valid by done. by rewrite <- list_fmap_compose.
  - split; [done|]. by exists cause.
  - split; [done|]. split; [done|]. repeat split; constructor.
Qed.

(** X2: two different names never carry the same iteration number, once
    one of them is valid. *)
Theorem iteration_numbers_distinct (a b : string) :
  0 ≤ parseIterationNum a → a ≠ b → parseIterationNum a ≠ parseIterationNum b.
Proof. intros Ha Hne E. apply Hne. by apply parseIterationNum_inj. Qed.

Lemma iteration_numbers_distinct_witness :
  parseIterationNum "restore.000100" ≠ parseIterationNum "restore.001000".
Proof.
  apply (iteration_numbers_distinct "restore.000100" "restore.001000").
  - vm_compute. discriminate.
  - discriminate.
Defined.

Lemma StronglySorted_le_lt (l : list Z) :
  Sorted Z.le l → NoDup l → StronglySorted Z.lt l.
Proof.
  intros Hs%Sorted_StronglySorted Hnd; [|intros x y z; lia].
  induction Hs as [|x l Hl IH Hall]; [constructor|].
  apply NoDup_cons in Hnd as [Hx Hnd]. constructor; [by apply IH|].
  rewrite List.Forall_forall in Hall |- *. intros y Hy.
  specialize (Hall y Hy). assert (x ≠ y); [|lia].
  intros ->. by apply Hx, list_elem_of_In.
Qed.

(** X3: where the scan of the directory succeeds and the names of the
    children are distinct, [getAvailableIterations] returns a strictly
    ascending list (no number twice), with one number per valid entry, at
    most a million of them, and a number is in the list exactly when it is
    the iteration number of a child for which [is_directory()] held. *)
Theorem getAvailableIterations_strictly_ascending (this : RestartCleaner) (w : world)
    (cs : list dirent) :
  w_fs w !! d_restart_base_path this = Some (Listable cs) →
  NoDup (d_name <$> cs) →
  ∃ iterations,
    getAvailableIterations this w = (Ok iterations, w) ∧
    StronglySorted Z.lt iterations ∧
    length iterations = length (List.filter valid_entry cs) ∧
    Z.of_nat (length iterations) ≤ 1000000 ∧
    ∀ i, i ∈ iterations ↔
         ∃ e, e ∈ cs ∧ d_is_directory e = true ∧ parseIterationNum (d_name e) = i ∧ 0 ≤ i.
Proof.
  intros Hfs Hnd. rewrite getAvailableIterations_run, Hfs.
  set (valid := List.filter valid_entry cs).
  assert (sort_ints (entry_iteration <$> valid) ≡ₚ entry_iteration <$> valid) as Hperm
    by apply merge_sort_Permutation.
  assert (NoDup (entry_iteration <$> valid)) as Hiter.
  { apply valid_entries_NoDup_iterations; [apply Forall_filter_valid|].
    by apply valid_entries_NoDup_names. }
  eexists. split; [done|]. split; [|split; [|split]].
  - apply StronglySorted_le_lt; [apply (Sorted_merge_sort Z.le)|by rewrite Hperm].
  - by rewrite Hperm, length_fmap.
  - rewrite Hperm, length_fmap. by apply valid_entries_length.
  - intros i. rewrite Hperm, list_elem_of_fmap. split.
    + intros (e & -> & He). apply list_elem_of_In, filter_In in He as [Hin Hv].
      exists e. pose proof (valid_entry_iteration e Hv).
      apply andb_true_iff in Hv as [Hd _]. by rewrite <- list_elem_of_In in Hin.
    + intros (e & Hin & Hd & <- & Hi). exists e. split; [done|].
      apply list_elem_of_In, filter_In. split; [by apply list_elem_of_In|].
      unfold valid_entry. rewrite Hd. by apply Z.leb_le.
Qed.

Lemma getAvailableIterations_strictly_ascending_witness :
  ∃ iterations,
    getAvailableIterations (test_cleaner 3 false) test_world = (Ok iterations, test_world) ∧
    StronglySorted Z.lt iterations.
Proof.
  destruct (getAvailableIterations_strictly_ascending
              (test_cleaner 3 false) test_world test_children)
    as (its & Hrun & Hss & _).
  - reflexivity.
  - by_evaluation.
  - exists its. split; assumption.
Defined.

Lemma sort_ints_Permutation (l1 l2 : list Z) : l1 ≡ₚ l2 → sort_ints l1 = sort_ints l2.
Proof.
  intros Hp. apply (Sorted_unique Z.le).
  - apply (Sorted_merge_sort Z.le).
  - apply (Sorted_merge_sort Z.le).
  - unfold sort_ints. by rewrite !merge_sort_Permutation.
Qed.

(** X4: the result of [getAvailableIterations] depends neither on the
    order in which the directory lists its children nor on the keep count
    and the dry-run flag of the object. *)
Theorem getAvailableIterations_order_independent (c1 c2 : RestartCleaner)
    (w1 w2 : world) (cs1 cs2 : list dirent) :
  d_restart_base_path c1 = d_restart_base_path c2 →
  w_fs w1 !! d_restart_base_path c1 = Some (Listable cs1) →
  w_fs w2 !! d_restart_base_path c2 = Some (Listable cs2) →
  cs1 ≡ₚ cs2 →
  (getAvailableIterations c1 w1).1 = (getAvailableIterations c2 w2).1.
Proof.
  intros Hbase H1 H2 Hperm. rewrite !getAvailableIterations_run, H1, H2. cbn.
  f_equal. apply sort_ints_Permutation, fmap_Permutation.
  by apply filter_bool_Permutation.
Qed.

Lemma getAvailableIterations_order_independent_witness :
  (getAvailableIterations (test_cleaner 3 false) test_world).1
  = (getAvailableIterations (test_cleaner 10 true)
       {| w_fs := {[ test_path := Listable (reverse test_children) ]}; w_out := [] |}).1.
Proof.
  apply (getAvailableIterations_order_independent _ _ _ _
           test_children (reverse test_children)).
  - reflexivity.
  - reflexivity.
  - reflexivity.
  - symmetry. apply reverse_Permutation.
Defined.

(** * Further properties of cleanup *)

(** X5: [cleanup] changes nothing in the filesystem where the scan of the
    base path does not succeed (nothing there, or a scan that fails); where
    it succeeds, the names of the children after [cleanup] are among the
    names before, in the same order, and the name of every child that is not
    a valid restart directory is still there. *)
Theorem cleanup_frame (this : RestartCleaner) (w : world) :
  NoDup (d_name <$> children_at (w_fs w) (d_restart_base_path this)) →
  0 < d_keep_restart_count this →
  let base := d_restart_base_path this in
  let w' := (cleanup this w).2 in
  ((∀ cs, w_fs w !! base ≠ Some (Listable cs)) → w_fs w' = w_fs w) ∧
  (d_name <$> children_at (w_fs w') base)
    `sublist_of` (d_name <$> children_at (w_fs w) base) ∧
  (∀ e, e ∈ children_at (w_fs w) base → valid_entry e = false →
        d_name e ∈ d_name <$> children_at (w_fs w') base).
Proof.
  intros Hnd Hpos base w'. subst w'. unfold children_at in *. fold base in Hnd.
  destruct (w_fs w !! base) as [[cs|cause]|] eqn:Hfs.
  - destruct (cleanup_listable this w cs Hfs Hnd Hpos)
      as (del & kept & Hperm & Hss & Hlen & ->). cbn [snd w_fs]. fold base.
    split; [intros H; by destruct (H cs)|].
    rewrite lookup_insert_eq. split; [apply fmap_sublist, filter_sublist|].
    intros e He Hinvalid. apply list_elem_of_fmap_2, list_elem_of_In, filter_In.
    split; [by apply list_elem_of_In|]. unfold survives.
    rewrite (bool_decide_eq_false_2 (e ∈ del)); [by rewrite orb_true_r|].
    intros Hdel.
    assert (e ∈ List.filter valid_entry cs) as Hv
      by (rewrite <- Hperm; apply elem_of_app; by left).
    apply list_elem_of_In, filter_In in Hv as [_ Hv]. congruence.
  - pose proof (cleanup_outcome this w) as H. fold base in H. rewrite Hfs in H.
    rewrite H. cbn [snd w_fs with_output]. rewrite Hfs.
    split; [done|]. split; [done|]. by intros e ?%elem_of_nil.
  - rewrite cleanup_run, keepRecentN_none by by left. cbn [snd w_fs with_output].
    rewrite Hfs. split; [done|]. split; [done|]. by intros e ?%elem_of_nil.
Qed.

Lemma cleanup_frame_witness :
  "restore.000050"
    ∈ d_name <$> children_at (w_fs (cleanup (test_cleaner 1 false) locked_world).2)
                   test_path.
Proof.
  assert (NoDup (d_name <$> children_at (w_fs locked_world)
                   (d_restart_base_path (test_cleaner 1 false)))) as Hnd
    by by_evaluation.
  destruct (cleanup_frame (test_cleaner 1 false) locked_world Hnd eq_refl)
    as (_ & _ & Hkeep).
  apply (Hkeep {| d_name := "restore.000050"; d_is_directory := false;
                  d_remove_error := None |}).
  - by_evaluation.
  - reflexivity.
Defined.

(** X6: a valid entry is still in the directory after [cleanup] exactly
    when the run was a dry run, or its removal fails, or fewer than
    keep-count valid entries have a larger iteration number. *)
Theorem cleanup_retention (this : RestartCleaner) (w : world) (cs : list dirent)
    (e : dirent) :
  w_fs w !! d_restart_base_path this = Some (Listable cs) →
  NoDup (d_name <$> cs) →
  0 < d_keep_restart_count this →
  e ∈ cs → valid_entry e = true →
  e ∈ children_at (w_fs (cleanup this w).2) (d_restart_base_path this) ↔
  d_dry_run this = true ∨ is_Some (d_remove_error e) ∨
  Z.of_nat (newer_count (List.filter valid_entry cs) e) < d_keep_restart_count this.
Proof.
  intros Hfs Hnd Hpos He Hv.
  destruct (cleanup_listable this w cs Hfs Hnd Hpos)
    as (del & kept & Hperm & Hss & Hlen & ->). cbn [snd w_fs].
  unfold children_at. rewrite lookup_insert_eq.
  assert (e ∈ List.filter valid_entry cs) as Hvalid.
  { apply list_elem_of_In, filter_In. split; [by apply list_elem_of_In|done]. }
  pose proof (deletion_set_newer del kept _ _ e Hperm Hss Hlen Hvalid) as Hdel.
  rewrite list_elem_of_In, filter_In, <- list_elem_of_In. unfold survives.
  rewrite !orb_true_iff, negb_true_iff, bool_decide_eq_false, bool_decide_eq_true.
  split.
  - intros [_ [[Hd|Hd]|Hd]]; [by left| |by right; left].
    right; right. rewrite Hdel in Hd. lia.
  - intros H. split; [done|]. destruct H as [H|[H|H]]; [by left; left|by right|].
    left; right. rewrite Hdel. lia.
Qed.

Lemma cleanup_retention_witness :
  test_dir "restore.000400"
    ∈ children_at (w_fs (cleanup (test_cleaner 1 false) locked_world).2) test_path.
Proof.
  apply (cleanup_retention (test_cleaner 1 false) locked_world locked_children
           (test_dir "restore.000400")).
  - reflexivity.
  - by_evaluation.
  - reflexivity.
  - by_evaluation.
  - reflexivity.
  - right; right. reflexivity.
Defined.

(** X8: a second [cleanup] right after the first leaves the filesystem as
    the first left it, also where removals of the first run failed. *)
Theorem cleanup_idempotent (this : RestartCleaner) (w : world) :
  NoDup (d_name <$> children_at (w_fs w) (d_restart_base_path this)) →
  0 < d_keep_restart_count this →
  w_fs (cleanup this (cleanup this w).2).2 = w_fs (cleanup this w).2.
Proof.
  intros Hnd Hpos. set (base := d_restart_base_path this) in *.
  assert (∀ w0, (∀ cs, w_fs w0 !! base ≠ Some (Listable cs)) →
                w_fs (cleanup this w0).2 = w_fs w0) as Hother.
  { intros w0 Hno. pose proof (cleanup_outcome this w0) as H. fold base in H.
    destruct (w_fs w0 !! base) as [[cs|cause]|] eqn:E.
    - by destruct (Hno cs).
    - by rewrite H.
    - rewrite cleanup_run, keepRecentN_none by by left. done. }
  unfold children_at in Hnd.
  destruct (w_fs w !! base) as [[cs|cause]|] eqn:Hfs.
  2,3: apply Hother; rewrite (Hother w) by (intros cs; congruence);
       intros cs; congruence.
  destruct (cleanup_listable this w cs Hfs Hnd Hpos)
    as (del & kept & Hperm & Hss & Hlen & ->). cbn [snd]. fold base.
  set (cs' := List.filter (survives (d_dry_run this) del) cs).
  set (w1 := {| w_fs := <[base:=Listable cs']> (w_fs w); w_out := _ |}).
  assert (w_fs w1 !! base = Some (Listable cs')) as Hfs1 by apply lookup_insert_eq.
  assert (NoDup (d_name <$> cs')) as Hnd1 by by apply NoDup_names_filter.
  destruct (cleanup_listable this w1 cs' Hfs1 Hnd1 Hpos)
    as (del' & kept' & Hperm' & Hss' & Hlen' & ->). subst w1. cbn [snd w_fs]. fold base.
  rewrite insert_insert_eq. f_equal. f_equal.
  apply filter_all_true. intros x Hx. unfold survives.
  destruct (d_dry_run this) eqn:Hdry; [done|]. cbn [orb].
  destruct (d_remove_error x) as [cause|] eqn:Herr.
  { rewrite (bool_decide_eq_true_2 (is_Some _)) by by eexists. by rewrite orb_true_r. }
  rewrite (bool_decide_eq_false_2 (x ∈ del')); [done|]. intros Hd'.
  (* [x] was processed by the second run, so it is a valid entry that the
     first run left in place although it could be removed: it was retained. *)
  assert (x ∈ List.filter valid_entry cs') as Hv'
    by (rewrite <- Hperm'; apply elem_of_app; by left).
  pose proof (proj1 (deletion_set_newer del' kept' _ _ x Hperm' Hss' Hlen' Hv') Hd') as Hc'.
  apply list_elem_of_In, filter_In in Hv' as [Hx' Hv].
  subst cs'. apply filter_In in Hx' as [Hxcs Hsurv].
  unfold survives in Hsurv. rewrite ?Hdry, Herr in Hsurv. cbn [orb] in Hsurv.
  rewrite (bool_decide_eq_false_2 (is_Some None)) in Hsurv by by intros [? ?].
  rewrite orb_false_r in Hsurv. apply negb_true_iff, bool_decide_eq_false in Hsurv.
  assert (x ∈ List.filter valid_entry cs) as Hvx.
  { apply list_elem_of_In, filter_In. done. }
  pose proof (deletion_set_newer del kept _ _ x Hperm Hss Hlen Hvx) as Hiff.
  assert (newer_count (List.filter valid_entry
            (List.filter (survives false del) cs)) x
          ≤ newer_count (List.filter valid_entry cs) x)%nat as Hmono.
  { unfold newer_count. rewrite (filter_comm valid_entry), filter_comm.
    apply filter_length_le. }
  apply Hsurv, Hiff. lia.
Qed.

Lemma cleanup_idempotent_witness :
  w_fs (cleanup (test_cleaner 1 false)
          (cleanup (test_cleaner 1 false) locked_world).2).2
  = w_fs (cleanup (test_cleaner 1 false) locked_world).2.
Proof.
  apply (cleanup_idempotent (test_cleaner 1 false) locked_world).
  - by_evaluation.
  - reflexivity.
Defined.

(** X9: the outcome of [cleanup], the lines it writes and the set of
    children it leaves do not depend on the order in which the directory
    lists its children. *)
Theorem cleanup_order_independent (this : RestartCleaner) (w1 w2 : world)
    (cs1 cs2 : list dirent) :
  w_fs w1 !! d_restart_base_path this = Some (Listable cs1) →
  w_fs w2 !! d_restart_base_path this = Some (Listable cs2) →
  cs1 ≡ₚ cs2 →
  NoDup (d_name <$> cs1) →
  0 < d_keep_restart_count this →
  w_out w1 = w_out w2 →
  (cleanup this w1).1 = (cleanup this w2).1 ∧
  w_out (cleanup this w1).2 = w_out (cleanup this w2).2 ∧
  children_at (w_fs (cleanup this w1).2) (d_restart_base_path this)
    ≡ₚ children_at (w_fs (cleanup this w2).2) (d_restart_base_path this).
Proof.
  intros H1 H2 Hperm Hnd1 Hpos Hout.
  assert (NoDup (d_name <$> cs2)) as Hnd2 by by rewrite <- Hperm.
  destruct (cleanup_listable this w1 cs1 H1 Hnd1 Hpos)
    as (del1 & kept1 & Hp1 & Hs1 & Hl1 & ->).
  destruct (cleanup_listable this w2 cs2 H2 Hnd2 Hpos)
    as (del2 & kept2 & Hp2 & Hs2 & Hl2 & ->).
  pose proof (filter_bool_Permutation valid_entry _ _ Hperm) as Hvalid.
  destruct (sorted_split_unique del1 kept1 del2 kept2 Hs1 Hs2) as [-> ->].
  { by rewrite Hp1, Hp2. }
  { by rewrite Hl1, Hl2, Hvalid. }
  cbn [fst snd w_out w_fs]. unfold children_at. rewrite !lookup_insert_eq.
  split; [done|]. split; [by rewrite Hout, Hvalid|].
  by apply filter_bool_Permutation.
Qed.

Lemma cleanup_order_independent_witness :
  w_out (cleanup (test_cleaner 3 false) test_world).2
  = w_out (cleanup (test_cleaner 3 false)
             {| w_fs := {[ test_path := Listable (reverse test_children) ]};
                w_out := [] |}).2.
Proof.
  apply (cleanup_order_independent (test_cleaner 3 false) test_world
           {| w_fs := {[ test_path := Listable (reverse test_children) ]}; w_out := [] |}
           test_children (reverse test_children)).
  - reflexivity.
  - reflexivity.
  - symmetry. apply reverse_Permutation.
  - by_evaluation.
  - reflexivity.
  - reflexivity.
Defined.

(** X10: [cleanup] throws exactly in the states in which the scan of the
    base path fails, at whatever stage (status, opening, entry); a failing
    removal never makes it throw, and neither does a base path that is gone.
    When it throws, the filesystem is unchanged and the exception is the
    [runtime_error] of the scan. *)
Theorem cleanup_throws_iff (this : RestartCleaner) (w : world) :
  ((∃ e w', cleanup this w = (Throw e, w')) ↔
   ∃ cause, w_fs w !! d_restart_base_path this = Some (Unlistable cause)) ∧
  (∀ e w', cleanup this w = (Throw e, w') →
     w_fs w' = w_fs w ∧
     ∃ cause, e = runtime_error ("RestartCleaner: Error scanning directory: " ++ cause)).
Proof.
  pose proof (cleanup_outcome this w) as H.
  destruct (w_fs w !! d_restart_base_path this) as [[cs|cause]|].
  - destruct H as (w1 & -> & _). split.
    + split; [by intros (e & w' & ?)|by intros [? ?]].
    + by intros e w' ?.
  - rewrite H. split.
    + split; [intros _; by exists cause|intros _; by eexists _, _].
    + intros e w' [= <- <-]. split; [done|]. by exists cause.
  - destruct H as (w1 & -> & _). split.
    + split; [by intros (e & w' & ?)|by intros [? ?]].
    + by intros e w' ?.
Qed.

Lemma cleanup_throws_iff_witness :
  (∃ e w', cleanup (test_cleaner 3 false) unreadable_world = (Throw e, w')) ∧
  (∃ e w', cleanup (test_cleaner 3 false) unreachable_world = (Throw e, w')) ∧
  (∃ e w', cleanup (test_cleaner 3 false) looping_world = (Throw e, w')).
Proof.
  split; [|split].
  - apply (proj1 (cleanup_throws_iff (test_cleaner 3 false) unreadable_world)).
    eexists. reflexivity.
  - apply (proj1 (cleanup_throws_iff (test_cleaner 3 false) unreachable_world)).
    eexists. reflexivity.
  - apply (proj1 (cleanup_throws_iff (test_cleaner 3 false) looping_world)).
    eexists. reflexivity.
Defined.

(** * Further properties of the command line *)

Lemma cleaner_session_run restart_dir keep dry w :
  0 < keep →
  let cleaner := {| d_restart_base_path := restart_dir; d_strategy := KEEP_RECENT_N;
                    d_keep_restart_count := keep; d_dry_run := dry |} in
  (∃ e, cleaner_session restart_dir keep dry w = (Throw e, w) ∧
        ∀ cs, w_fs w !! restart_dir ≠ Some (Listable cs))
  ∨ (is_Some (w_fs w !! restart_dir) ∧
     cleaner_session restart_dir keep dry w =
       match cleanup cleaner w with
       | (Throw e, w1) => (Throw e, w1)
       | (Ok _, w1) =>
           match getAvailableIterations cleaner w1 with
           | (Ok remaining, w2) => (Ok 0, with_output w2 [final_line remaining])
           | (Throw e, w2) => (Throw e, w2)
           end
       end).
Proof.
  intros Hpos cleaner. unfold cleaner_session.
  rewrite bind_run, RestartCleaner_new_run. cbn [String.eqb Ascii.eqb Bool.eqb negb].
  destruct (Z.leb_spec keep 0); [lia|].
  assert (∀ w0, (let (o, w') := (Ok cleaner, w0) in
                 match o with
                 | Ok a => (λ cleaner0, cleanup cleaner0;;;
                      let* remaining := getAvailableIterations cleaner0
                      in cout (newline ++ "Final result: "
                                 ++ show_int (Z.of_nat (length remaining))
                                 ++ " directories remaining.");;; ret 0) a w'
                 | Throw e => (Throw e, w')
                 end) =
               match cleanup cleaner w0 with
               | (Throw e, w1) => (Throw e, w1)
               | (Ok _, w1) =>
                   match getAvailableIterations cleaner w1 with
                   | (Ok remaining, w2) => (Ok 0, with_output w2 [final_line remaining])
                   | (Throw e, w2) => (Throw e, w2)
                   end
               end) as Hbody.
  { intros w0. cbv beta iota. rewrite bind_run.
    destruct (cleanup cleaner w0) as [[[]|e] w1]; [|done].
    rewrite bind_run.
    destruct (getAvailableIterations cleaner w1) as [[remaining|e] w2]; [|done].
    by run_prints. }
  destruct (w_fs w !! restart_dir) as [[cs|[[] cause]]|] eqn:Hfs.
  - right. split; [by eexists|apply Hbody].
  - left. eexists. split; [done|]. intros cs. congruence.
  - right. split; [by eexists|apply Hbody].
  - right. split; [by eexists|apply Hbody].
  - left. eexists. split; [done|]. intros cs. congruence.
Qed.

(** X11: [main] exits with 0 exactly when the command line has no usage
    error and the scan of the restart directory succeeds, and with 1 in
    every other case (nothing at the path, an unreadable status, a scan that
    fails at its opening or at an entry); removals that fail do not change
    the exit code. *)
Theorem main_exit_code (argv : list string) (w : world) :
  (exit_code (main argv w) = Some 0 ↔
   ¬ usage_error argv ∧ ∃ cs, w_fs w !! arg argv 3 = Some (Listable cs)) ∧
  (exit_code (main argv w) = Some 1 ↔
   ¬ (¬ usage_error argv ∧ ∃ cs, w_fs w !! arg argv 3 = Some (Listable cs))).
Proof.
  assert ((¬ usage_error argv ∧ ∃ cs, w_fs w !! arg argv 3 = Some (Listable cs)) ∧
            exit_code (main argv w) = Some 0
          ∨ ¬ (¬ usage_error argv ∧ ∃ cs, w_fs w !! arg argv 3 = Some (Listable cs)) ∧
            exit_code (main argv w) = Some 1) as [[Hc He]|[Hc He]].
  { destruct (main_run argv w) as [(Hu & lines & -> & _)|(Hno & keep & _ & Hpos & ->)].
    { right. split; [tauto|done]. }
    rewrite run_cleaner_run.
    destruct (cleaner_session_run (arg argv 3) keep (Z.of_nat (length argv) =? 5) w Hpos)
      as [(e & -> & Hnl)|[Hsome ->]].
    { right. split; [|done]. intros [_ [cs Hcs]]. by apply (Hnl cs). }
    set (cleaner := {| d_restart_base_path := arg argv 3 |}).
    pose proof (cleanup_outcome cleaner w) as Hclean. cbn [d_restart_base_path cleaner] in Hclean.
    destruct (w_fs w !! arg argv 3) as [[cs|cause]|] eqn:Hfs.
    - left. split; [split; [done|by exists cs]|].
      destruct Hclean as (w1 & -> & _).
      rewrite getAvailableIterations_run.
      by destruct (w_fs w1 !! d_restart_base_path cleaner) as [[?|?]|].
    - right. split; [by intros [_ [? ?]]|]. by rewrite Hclean.
    - by destruct Hsome. }
  - rewrite He. split; split; try done; intros H; by destruct H.
  - rewrite He. split; split; try done; by intros [=].
Qed.

Lemma main_exit_code_witness :
  exit_code (main ["restart_cleaner"; "--recent"; "1"; test_path] locked_world) = Some 0 ∧
  exit_code (main ["restart_cleaner"; "--recent"; "1"; test_path] looping_world) = Some 1.
Proof.
  split.
  2:{ apply (proj2 (main_exit_code ["restart_cleaner"; "--recent"; "1"; test_path]
                      looping_world)).
      intros [_ [cs Hcs]]. discriminate Hcs. }
  apply (proj1 (main_exit_code ["restart_cleaner"; "--recent"; "1"; test_path]
                  locked_world)).
  split.
  - intros [H|[H|[H|[[H _]|[[e He]|(n & Hn & Hle)]]]]].
    + vm_compute in H. discriminate H.
    + vm_compute in H. discriminate H.
    + apply H. reflexivity.
    + discriminate H.
    + discriminate He.
    + change (stoi (arg ["restart_cleaner"; "--recent"; "1"; test_path] 2))
        with (@Ok Z 1) in Hn.
      injection Hn as <-. lia.
  - exists locked_children. reflexivity.
Defined.

Lemma cleanup_dry_frame this w :
  d_dry_run this = true → w_fs (cleanup this w).2 = w_fs w.
Proof.
  intros Hdry. rewrite cleanup_run.
  destruct (keepRecentN_dry_frame this (with_output w (cleanup_header this)) Hdry)
    as (lines & Hrun & _).
  destruct (keepRecentN _ _) as [r w1]. cbn [snd] in *. by subst w1.
Qed.

Lemma getAvailableIterations_frame this w :
  w_fs (getAvailableIterations this w).2 = w_fs w ∧
  ∃ iterations lines,
    getAvailableIterations this w = (Ok iterations, with_output w lines) ∧
    length iterations
      = length (List.filter valid_entry (children_at (w_fs w) (d_restart_base_path this))).
Proof.
  rewrite getAvailableIterations_run. unfold children_at.
  destruct (w_fs w !! d_restart_base_path this) as [[cs|cause]|].
  - split; [done|]. exists (sort_ints (entry_iteration <$> List.filter valid_entry cs)), [].
    rewrite with_output_nil. split; [done|].
    unfold sort_ints. by rewrite merge_sort_Permutation, length_fmap.
  - split; [done|]. by eexists [], _.
  - split; [done|]. exists [], []. by rewrite with_output_nil.
Qed.

(** X12: [main] leaves the filesystem as it was whenever it is called
    with five arguments (the fifth can only be [--dry-run]) or stops on a
    usage error. *)
Theorem main_preserves_filesystem (argv : list string) (w : world) :
  usage_error argv ∨ length argv = 5%nat →
  w_fs (main argv w).2 = w_fs w.
Proof.
  intros Hcase.
  destruct (main_run argv w) as [(Hu & lines & -> & _)|(Hno & keep & _ & Hpos & ->)];
    [done|].
  destruct Hcase as [Hu|Hlen]; [done|]. rewrite Hlen.
  change (Z.of_nat 5 =? 5) with true.
  rewrite run_cleaner_run.
  destruct (cleaner_session_run (arg argv 3) keep true w Hpos) as [(e & -> & _)|[_ ->]];
    [done|].
  set (cleaner := {| d_restart_base_path := arg argv 3 |}).
  pose proof (cleanup_dry_frame cleaner w eq_refl) as Hclean.
  destruct (cleanup cleaner w) as [[[]|e] w1]; cbn [snd] in Hclean; [|done].
  destruct (getAvailableIterations_frame cleaner w1) as (Hget & _).
  destruct (getAvailableIterations cleaner w1) as [[remaining|e] w2]; cbn [snd] in Hget.
  - cbn [snd w_fs with_output]. congruence.
  - cbn [snd w_fs with_output]. congruence.
Qed.

Lemma main_preserves_filesystem_witness :
  w_fs (main ["restart_cleaner"; "--recent"; "3"; test_path; "--dry-run"] test_world).2
  = w_fs test_world.
Proof.
  apply (main_preserves_filesystem
           ["restart_cleaner"; "--recent"; "3"; test_path; "--dry-run"] test_world).
  right. reflexivity.
Defined.

(** X13: when the command line has no usage error and the scan of the
    restart directory succeeds, [main] exits with 0, the last line it writes
    is the final count, and the count is the number of valid entries the
    directory holds when [main] returns. *)
Theorem main_final_count (argv : list string) (w : world) (cs : list dirent) :
  ¬ usage_error argv →
  w_fs w !! arg argv 3 = Some (Listable cs) →
  ∃ (w' : world) (lines : output) (remaining : list Z),
    main argv w = (Ok 0, w') ∧
    w_out w' = (w_out w ++ lines ++ [final_line remaining])%list ∧
    length remaining
      = length (List.filter valid_entry (children_at (w_fs w') (arg argv 3))).
Proof.
  intros Hno Hfs.
  destruct (main_run argv w) as [[Hu _]|(_ & keep & _ & Hpos & ->)]; [done|].
  rewrite run_cleaner_run.
  destruct (cleaner_session_run (arg argv 3) keep (Z.of_nat (length argv) =? 5) w Hpos)
    as [(e & _ & Hnl)|[_ ->]]; [by destruct (Hnl cs)|].
  set (cleaner := {| d_restart_base_path := arg argv 3 |}).
  pose proof (cleanup_outcome cleaner w) as Hclean.
  cbn [d_restart_base_path cleaner] in Hclean. rewrite Hfs in Hclean.
  destruct Hclean as (w1 & -> & l1 & Hl1).
  destruct (getAvailableIterations_frame cleaner w1)
    as (_ & remaining & l2 & -> & Hlen).
  eexists _, (l1 ++ l2)%list, remaining. split; [done|].
  cbn [w_out w_fs with_output]. split; [|done].
  by rewrite Hl1, <- !app_assoc.
Qed.

Lemma main_final_count_witness :
  ∃ (w' : world) (lines : output) (remaining : list Z),
    main ["restart_cleaner"; "--recent"; "3"; test_path] test_world = (Ok 0, w') ∧
    w_out w' = (w_out test_world ++ lines ++ [final_line remaining])%list ∧
    length remaining
      = length (List.filter valid_entry (children_at (w_fs w') test_path)).
Proof.
  apply (main_final_count ["restart_cleaner"; "--recent"; "3"; test_path] test_world
           test_children).
  - intros [H|[H|[H|[[H _]|[[e He]|(n & Hn & Hle)]]]]].
    + vm_compute in H. discriminate H.
    + vm_compute in H. discriminate H.
    + apply H. reflexivity.
    + discriminate H.
    + discriminate He.
    + change (stoi (arg ["restart_cleaner"; "--recent"; "3"; test_path] 2))
        with (@Ok Z 3) in Hn.
      injection Hn as <-. lia.
  - reflexivity.
Defined.

(** * Names and numbers, and the bounds of the deletion loop *)

(** X14: every number from 0 to 999999 is the iteration number of exactly
    one name, and that name has 14 characters. *)
Theorem every_iteration_has_one_name (i : Z) :
  0 ≤ i ≤ 999999 →
  ∃ name, parseIterationNum name = i ∧ String.length name = 14%nat ∧
          ∀ name', parseIterationNum name' = i → name' = name.
Proof.
  intros Hi.
  set (d := [(i / 100000) `mod` 10; (i / 10000) `mod` 10; (i / 1000) `mod` 10;
             (i / 100) `mod` 10; (i / 10) `mod` 10; i `mod` 10]).
  assert (Forall (λ v, 0 ≤ v ≤ 9) d) as HF.
  { assert (∀ x, 0 ≤ x `mod` 10 ≤ 9) as Hmod
      by (intros x; pose proof (Z.mod_pos_bound x 10); lia).
    subst d. repeat (apply List.Forall_cons; [apply Hmod|]). apply List.Forall_nil. }
  assert (decimal d = i) as Hdec.
  { subst d. unfold decimal. cbn [foldl].
    Z.to_euclidean_division_equations. lia. }
  destruct (parseIterationNum_restart_name d eq_refl HF) as [Hparse _].
  exists (restart_name d). split; [congruence|]. split.
  - destruct (restart_name_shape (digit_char <$> d)) as [Hl _]; [by rewrite length_fmap|].
    exact Hl.
  - intros name' Hname'. symmetry. apply parseIterationNum_inj; [|congruence].
    rewrite Hparse, Hdec. lia.
Qed.

Lemma every_iteration_has_one_name_witness :
  ∃ name, parseIterationNum name = 2500 ∧ String.length name = 14%nat ∧
          ∀ name', parseIterationNum name' = 2500 → name' = name.
Proof. apply (every_iteration_has_one_name 2500). lia. Defined.

(** X15: with a positive keep count, whenever [keepRecentN] reaches its
    deletion loop the number of rounds is the number of entries minus the
    keep count, computed without wrap-around, positive and below the number
    of entries: every index the loop reads is inside the vector. *)
Theorem deletion_loop_in_bounds (this : RestartCleaner) (cs : list dirent) :
  NoDup (d_name <$> cs) →
  0 < d_keep_restart_count this →
  let dirs_with_iter :=
    sort_pairs (collect_dirs_with_iter
                  (collect_restart_dirs (d_restart_base_path this) cs)) in
  let size := Z.of_nat (length dirs_with_iter) in
  let num_to_delete := to_int (to_size_t (size - to_size_t (d_keep_restart_count this))) in
  (to_int size <=? d_keep_restart_count this) = false →
  num_to_delete = size - d_keep_restart_count this ∧
  0 < num_to_delete < size ∧
  ∀ i : nat, (i < Z.to_nat num_to_delete)%nat → is_Some (dirs_with_iter !! i).
Proof.
  intros Hnd Hpos dirs size num Hcmp. subst num.
  pose proof (valid_entries_length cs Hnd) as Hbound.
  assert (size = Z.of_nat (length (List.filter valid_entry cs))) as Hsize.
  { subst size dirs. rewrite sort_pairs_length, collect_restart_dirs_filter.
    rewrite collect_dirs_with_iter_valid by apply Forall_filter_valid.
    by rewrite length_fmap. }
  rewrite to_int_small in Hcmp by lia. apply Z.leb_gt in Hcmp.
  rewrite (to_size_t_small (d_keep_restart_count this)) by lia.
  rewrite to_size_t_small, to_int_small by lia.
  split; [done|]. split; [lia|].
  intros i Hi. apply lookup_lt_is_Some. fold size in Hsize |- *. lia.
Qed.

Lemma deletion_loop_in_bounds_witness :
  is_Some (sort_pairs (collect_dirs_with_iter
                         (collect_restart_dirs test_path test_children)) !! 5%nat).
Proof.
  apply (deletion_loop_in_bounds (test_cleaner 3 false) test_children).
  - by_evaluation.
  - reflexivity.
  - reflexivity.
  - vm_compute. lia.
Defined.
